(** * The swap-network Trotter ansatz for the Hubbard model

    A shallow embedding of
    [openfermioncirq/variational/ansatzes/swap_network_trotter_hubbard.py]
    and the properties of its lattice geometry, of its exponent
    canonicalisation and of its parameter bookkeeping.

    Conventions of the embedding:
    - Python integers are [Z]; [x_dim], [y_dim] and [iterations] are integers.
    - Python floats are idealised as exact rationals [Q]: a float operation
      is the exact operation, without rounding.  [numpy.pi] is the rational
      number that the double-precision constant denotes.  Module [Binary64]
      gives [_canonicalize_exponent] a second time, on binary64 numbers with
      every operation rounded as the machine rounds it.
    - A Python exception is a [Raise] in the [result] monad; the Python value
      [None] returned by the neighbour functions is [None] of [option]. *)

From Stdlib Require Import ZArith QArith Qround Qabs Qfield Bool List String.
From Stdlib Require Import SpecFloat.
From Stdlib Require Import Lia Lqa FinFun.
Import ListNotations.

Local Open Scope Z_scope.

(** ** Exceptions *)

Inductive exn : Type :=
| ZeroDivisionError
| ValueError
| OverflowError.

Inductive result (A : Type) : Type :=
| Ok (a : A)
| Raise (e : exn).

Arguments Ok {A} a.
Arguments Raise {A} e.

Definition bind {A B : Type} (c : result A) (k : A -> result B) : result B :=
  match c with
  | Ok a => k a
  | Raise e => Raise e
  end.

Notation "x <- c ;; k" := (bind c (fun x => k))
  (at level 61, c at next level, right associativity).

(** Python's [a % b] on integers: the result has the sign of [b], as
    [Z.modulo]; a zero divisor raises. *)
Definition py_mod (a b : Z) : result Z :=
  if b =? 0 then Raise ZeroDivisionError else Ok (a mod b).

(** ** Lattice geometry *)

Module Lattice.

(** [q == r] where [r] is an integer or [None]: an integer never equals
    [None]. *)
Definition eq_site (q : Z) (r : option Z) : bool :=
  match r with
  | Some s => q =? s
  | None => false
  end.

Definition _right_neighbor (site x_dimension y_dimension : Z)
    (periodic : bool) : result (option Z) :=
  if x_dimension =? 1 then Ok None
  else
    r <- py_mod (site + 1) x_dimension ;;
    if r =? 0 then
      if periodic then Ok (Some (site + 1 - x_dimension))
      else Ok None
    else Ok (Some (site + 1)).

Definition _bottom_neighbor (site x_dimension y_dimension : Z)
    (periodic : bool) : option Z :=
  if y_dimension =? 1 then None
  else if x_dimension * y_dimension <? site + x_dimension + 1 then
    if periodic then Some (site + x_dimension - x_dimension * y_dimension)
    else None
  else Some (site + x_dimension).

(** The first [if] of both edge predicates: the two indices lie in
    different spin sectors. *)
Definition different_sectors (p q n_sites : Z) : bool :=
  ((p <? n_sites) && (n_sites <=? q)) || ((q <? n_sites) && (n_sites <=? p)).

(** The second [if]: both indices in the upper sector are shifted down. *)
Definition fold_sector (p q n_sites : Z) : Z * Z :=
  if (n_sites <=? p) && (n_sites <=? q) then (p - n_sites, q - n_sites)
  else (p, q).

Definition _is_horizontal_edge (p q x_dim y_dim : Z) (periodic : bool)
    : result bool :=
  let n_sites := x_dim * y_dim in
  if different_sectors p q n_sites then Ok false
  else
    let '(p, q) := fold_sector p q n_sites in
    rp <- _right_neighbor p x_dim y_dim periodic ;;
    if eq_site q rp then Ok true
    else
      rq <- _right_neighbor q x_dim y_dim periodic ;;
      Ok (eq_site p rq).

Definition _is_vertical_edge (p q x_dim y_dim : Z) (periodic : bool) : bool :=
  let n_sites := x_dim * y_dim in
  if different_sectors p q n_sites then false
  else
    let '(p, q) := fold_sector p q n_sites in
    eq_site q (_bottom_neighbor p x_dim y_dim periodic)
    || eq_site p (_bottom_neighbor q x_dim y_dim periodic).

Definition _are_same_site_opposite_spin (p q n_sites : Z) : bool :=
  Z.abs (p - q) =? n_sites.

End Lattice.

(** ** Exponent canonicalisation *)

Module Exponent.

Local Open Scope Q_scope.

(** Python's [x / y] on floats: a zero divisor raises. *)
Definition py_div (x y : Q) : result Q :=
  if Qeq_bool y 0 then Raise ZeroDivisionError else Ok (x / y).

(** Python's [x % y] on floats: [x - y * floor (x / y)], which has the sign
    of [y]; a zero divisor raises. *)
Definition py_fmod (x y : Q) : result Q :=
  if Qeq_bool y 0 then Raise ZeroDivisionError
  else Ok (x - y * inject_Z (Qfloor (x / y))).

Definition _canonicalize_exponent (exponent : Q) (period : Z) : result Q :=
  let exponent := exponent + inject_Z period / 2 in
  exponent <- py_fmod exponent (inject_Z period) ;;
  let exponent := exponent - inject_Z period / 2 in
  if Qle_bool exponent (inject_Z (- period) / 2)
  then Ok (exponent + inject_Z period)
  else Ok exponent.

(** [numpy.pi]: the double 0x400921FB54442D18, that is
    884279719003555 / 2^48. *)
Definition numpy_pi : Q := 884279719003555 # 281474976710656.

End Exponent.

(** ** Exponent canonicalisation in binary64

    The same function on the numbers the interpreter computes with: a
    Python float is an IEEE 754 binary64 number ([spec_float] with a
    precision of 53 bits), and each operation rounds to the nearest number,
    ties to even. *)

Module Binary64.

Definition prec : Z := 53.
Definition emax : Z := 1024.

(** The binary64 number nearest to [m * 2 ^ e]. *)
Definition dyadic (m e : Z) : spec_float :=
  binary_normalize prec emax m e false.

(** A conversion or division of integers whose result is too large for a
    float raises. *)
Definition finite_or_overflow (f : spec_float) : result spec_float :=
  match f with
  | S754_infinity _ => Raise OverflowError
  | _ => Ok f
  end.

(** [float(n)] of an integer, as in [x % n] and [x + n]. *)
Definition of_int (n : Z) : result spec_float :=
  finite_or_overflow (dyadic n 0).

(** [n / 2] on an integer: the quotient, correctly rounded. *)
Definition int_half (n : Z) : result spec_float :=
  finite_or_overflow (dyadic n (-1)).

Definition add : spec_float -> spec_float -> spec_float := SFadd prec emax.
Definition sub : spec_float -> spec_float -> spec_float := SFsub prec emax.

(** C's [fmod]: the remainder of the division truncated towards zero, which
    is exact and has the sign of [x]. *)
Definition fmod (x y : spec_float) : spec_float :=
  match x, y with
  | S754_nan, _ => S754_nan
  | _, S754_nan => S754_nan
  | S754_infinity _, _ => S754_nan
  | _, S754_zero _ => S754_nan
  | S754_zero _, _ => x
  | S754_finite _ _ _, S754_infinity _ => x
  | S754_finite sx mx ex, S754_finite _ my ey =>
      let ez := Z.min ex ey in
      let r := (Zpos mx * 2 ^ (ex - ez)) mod (Zpos my * 2 ^ (ey - ez)) in
      binary_normalize prec emax (cond_Zopp sx r) ez sx
  end.

Definition is_zero (x : spec_float) : bool := SFeqb x (S754_zero false).

(** [copysign(0.0, y)] *)
Definition zero_with_sign_of (y : spec_float) : spec_float :=
  match y with
  | S754_zero s => S754_zero s
  | S754_infinity s => S754_zero s
  | S754_finite s _ _ => S754_zero s
  | S754_nan => S754_zero false
  end.

(** Python's [vx % wx] on floats: [fmod], moved by [wx] when its sign is not
    the sign of [wx]; a zero remainder takes the sign of [wx]; a zero divisor
    raises. *)
Definition float_rem (vx wx : spec_float) : result spec_float :=
  if is_zero wx then Raise ZeroDivisionError
  else
    let remainder := fmod vx wx in
    if is_zero remainder then Ok (zero_with_sign_of wx)
    else if negb (Bool.eqb (SFltb wx (S754_zero false))
                    (SFltb remainder (S754_zero false)))
         then Ok (add remainder wx)
         else Ok remainder.

Definition _canonicalize_exponent (exponent : spec_float) (period : Z)
    : result spec_float :=
  half <- int_half period ;;
  let exponent := add exponent half in
  w <- of_int period ;;
  exponent <- float_rem exponent w ;;
  half <- int_half period ;;
  let exponent := sub exponent half in
  bound <- int_half (- period) ;;
  if SFleb exponent bound then
    w <- of_int period ;;
    Ok (add exponent w)
  else Ok exponent.


End Binary64.

(** ** Symbols, gates and qubits *)

(** Modelled from the spec: [LetterWithSubscripts], whose module is not part
    of the sources.  A symbolic parameter is identified by its letter and its
    tuple of integer subscripts. *)
Record LetterWithSubscripts : Type := mkLetter {
  letter : string;
  subscripts : list Z
}.

(** [LetterWithSubscripts('Th', i)]: one subscript. *)
Definition Letter (l : string) (i : Z) : LetterWithSubscripts :=
  mkLetter l [i].

(** A gate exponent: a symbol or its negation ([-th_symbol]). *)
Inductive Exponent_expr : Type :=
| Sym (s : LetterWithSubscripts)
| Neg (e : Exponent_expr).

Inductive Qid : Type :=
| LineQubit (x : Z)
| GridQubit (row col : Z)
| NamedQubit (name : string).

Inductive Gate : Type :=
| ISwapPowGate (exponent : Exponent_expr)
| CZPowGate (exponent : Exponent_expr).

(** [gate.on(a, b)] *)
Record Operation : Type := on {
  op_gate : Gate;
  op_first : Qid;
  op_second : Qid
}.

(** ** The store of qubit sequences

    A Python variable holds a reference to a sequence object; the caller of
    [operations] and its local variable [qubits] may hold the same one.  The
    store maps a reference to the contents of the object it denotes. *)

Definition ref : Type := nat.
Definition store : Type := list (list Qid).

Definition deref (s : store) (r : ref) : list Qid := nth r s [].

Definition State (A : Type) : Type := store -> A * store.

Definition st_ret {A : Type} (a : A) : State A := fun s => (a, s).

Definition st_bind {A B : Type} (c : State A) (k : A -> State B) : State B :=
  fun s => let '(a, s') := c s in k a s'.

Notation "x <~ c ;; k" := (st_bind c (fun x => k))
  (at level 61, c at next level, right associativity).

(** Reading the sequence a reference denotes. *)
Definition read (r : ref) : State (list Qid) := fun s => (deref s r, s).

(** [qubits[::-1]]: a new sequence object holding the elements in reverse
    order; the object sliced is left as it is. *)
Definition slice_reversed (r : ref) : State ref :=
  fun s => (List.length s, s ++ [rev (deref s r)]).

(** ** The ansatz *)

Record SwapNetworkTrotterHubbardAnsatz : Type := mkAnsatz {
  x_dim : Z;
  y_dim : Z;
  tunneling : Q;
  coulomb : Q;
  periodic : bool;
  iterations : Z;
  adiabatic_evolution_time : Q;
  qubits : list Qid
}.

(** [range(n)] *)
Definition range (n : Z) : list Z := map Z.of_nat (seq 0 (Z.to_nat n)).

Definition _generate_qubits (self : SwapNetworkTrotterHubbardAnsatz)
    : list Qid :=
  let n_qubits := 2 * x_dim self * y_dim self in
  map LineQubit (range n_qubits).

Section Construction.

(** [super().__init__], applied to the object whose attributes the
    initialiser has set so far. *)
Variable super_init :
  SwapNetworkTrotterHubbardAnsatz -> option (list Qid) ->
  result SwapNetworkTrotterHubbardAnsatz.

Definition __init__ (x_dim y_dim : Z) (tunneling coulomb : Q)
    (periodic : bool) (iterations : Z)
    (adiabatic_evolution_time : option Q) (qubits : option (list Qid))
    : result SwapNetworkTrotterHubbardAnsatz :=
  let adiabatic_evolution_time :=
    match adiabatic_evolution_time with
    | None => ((1 # 10) * Qabs coulomb * inject_Z iterations)%Q
    | Some t => t
    end in
  super_init
    (mkAnsatz x_dim y_dim tunneling coulomb periodic iterations
       adiabatic_evolution_time [])
    qubits.

End Construction.

(** *** [params] *)

(** What one turn of the loop of [params] yields. *)
Definition params_body (self : SwapNetworkTrotterHubbardAnsatz) (i : Z)
    : list LetterWithSubscripts :=
  (if 1 <? x_dim self then [Letter "Th" i] else [])
  ++ (if 1 <? y_dim self then [Letter "Tv" i] else [])
  ++ [Letter "V" i].

(** The remaining [n] turns of [for i in range(iterations)], from index
    [i] on. *)
Fixpoint params_from (self : SwapNetworkTrotterHubbardAnsatz) (n : nat)
    (i : Z) : list LetterWithSubscripts :=
  match n with
  | O => []
  | S n' => params_body self i ++ params_from self n' (i + 1)
  end.

Definition params (self : SwapNetworkTrotterHubbardAnsatz)
    : list LetterWithSubscripts :=
  params_from self (Z.to_nat (iterations self)) 0.

(** *** [param_bounds] *)

Definition bounds_step (bounds : list (Q * Q)) (param : LetterWithSubscripts)
    : list (Q * Q) :=
  let s := if String.eqb (letter param) "V" then 1%Q else 2%Q in
  bounds ++ [((- s)%Q, s)].

Definition param_bounds (self : SwapNetworkTrotterHubbardAnsatz)
    : list (Q * Q) :=
  fold_left bounds_step (params self) [].

(** *** [operations] *)

Section Operations.

(** The swap-network primitive is not part of the sources; it is taken as a
    parameter.  It reads the sequence it is given and calls the interaction
    callback on pairs of it. *)
Variable OP_TREE : Type.
Variable swap_network :
  list Qid -> (Z -> Z -> Qid -> Qid -> result (list Operation)) ->
  bool -> bool -> OP_TREE.

Definition when (c : bool) (o : Operation) : list Operation :=
  if c then [o] else [].

Definition one_and_two_body_interaction
    (self : SwapNetworkTrotterHubbardAnsatz) (i : Z) (p q : Z) (a b : Qid)
    : result (list Operation) :=
  let th_symbol := Letter "Th" i in
  let tv_symbol := Letter "Tv" i in
  let v_symbol := Letter "V" i in
  h <- Lattice._is_horizontal_edge p q (x_dim self) (y_dim self)
         (periodic self) ;;
  Ok (when h (on (ISwapPowGate (Neg (Sym th_symbol))) a b)
      ++ when (Lattice._is_vertical_edge p q (x_dim self) (y_dim self)
                 (periodic self))
           (on (ISwapPowGate (Neg (Sym tv_symbol))) a b)
      ++ when (Lattice._are_same_site_opposite_spin p q
                 (x_dim self * y_dim self))
           (on (CZPowGate (Sym v_symbol)) a b)).

Definition one_and_two_body_interaction_reversed_order
    (self : SwapNetworkTrotterHubbardAnsatz) (i : Z) (p q : Z) (a b : Qid)
    : result (list Operation) :=
  let th_symbol := Letter "Th" i in
  let tv_symbol := Letter "Tv" i in
  let v_symbol := Letter "V" i in
  let interaction :=
    when (Lattice._are_same_site_opposite_spin p q
            (x_dim self * y_dim self))
      (on (CZPowGate (Sym v_symbol)) a b) in
  let vertical :=
    when (Lattice._is_vertical_edge p q (x_dim self) (y_dim self)
            (periodic self))
      (on (ISwapPowGate (Neg (Sym tv_symbol))) a b) in
  h <- Lattice._is_horizontal_edge p q (x_dim self) (y_dim self)
         (periodic self) ;;
  Ok (interaction ++ vertical
      ++ when h (on (ISwapPowGate (Neg (Sym th_symbol))) a b)).

(** One turn of the loop of [operations]: the two trees it yields and the
    reference its local variable [qubits] holds at the end of the turn. *)
Definition operations_body (self : SwapNetworkTrotterHubbardAnsatz) (i : Z)
    (qubits : ref) : State (list OP_TREE * ref) :=
  l <~ read qubits ;;
  let first := swap_network l (one_and_two_body_interaction self i)
                 true false in
  qubits <~ slice_reversed qubits ;;
  l <~ read qubits ;;
  let second := swap_network l
                  (one_and_two_body_interaction_reversed_order self i)
                  true true in
  qubits <~ slice_reversed qubits ;;
  st_ret ([first; second], qubits).

Fixpoint operations_from (self : SwapNetworkTrotterHubbardAnsatz) (n : nat)
    (i : Z) (qubits : ref) : State (list OP_TREE) :=
  match n with
  | O => st_ret []
  | S n' =>
      r <~ operations_body self i qubits ;;
      rest <~ operations_from self n' (i + 1) (snd r) ;;
      st_ret (fst r ++ rest)
  end.

Definition operations (self : SwapNetworkTrotterHubbardAnsatz)
    (qubits : ref) : State (list OP_TREE) :=
  operations_from self (Z.to_nat (iterations self)) 0 qubits.

End Operations.

(** *** [default_initial_params] *)

Section DefaultInitialParams.

Import Exponent.
Local Open Scope Q_scope.

(** The scale factors come from [param_scale_factors] of the base class,
    which is not part of the sources: one per parameter, in the order of
    [params]. *)
Variable param_scale_factors : list Q.

(** One turn of the loop over [zip(params(), param_scale_factors())]. *)
Definition initial_param_step (self : SwapNetworkTrotterHubbardAnsatz)
    (step_time : Q) (params : list Q)
    (entry : LetterWithSubscripts * Q) : result (list Q) :=
  let '(param, scale_factor) := entry in
  if String.eqb (letter param) "Th" || String.eqb (letter param) "Tv" then
    e <- py_div (- tunneling self * step_time) numpy_pi ;;
    c <- _canonicalize_exponent e 4 ;;
    v <- py_div c scale_factor ;;
    Ok (params ++ [v])
  else if String.eqb (letter param) "V" then
    match subscripts param with
    | [i] =>
        interpolation_progress <-
          py_div ((1 # 2) * inject_Z (2 * i + 1))
            (inject_Z (iterations self)) ;;
        e <- py_div (- (1 # 2) * coulomb self * interpolation_progress
                     * step_time) numpy_pi ;;
        c <- _canonicalize_exponent e 2 ;;
        v <- py_div c scale_factor ;;
        Ok (params ++ [v])
    | _ => Raise ValueError
    end
  else Ok params.

(** A [for] loop whose body may raise. *)
Fixpoint for_each {A B : Type} (body : B -> A -> result B) (l : list A)
    (acc : B) : result B :=
  match l with
  | [] => Ok acc
  | x :: l' => acc' <- body acc x ;; for_each body l' acc'
  end.

Definition default_initial_params (self : SwapNetworkTrotterHubbardAnsatz)
    : result (list Q) :=
  let total_time := adiabatic_evolution_time self in
  step_time <- py_div total_time (inject_Z (iterations self)) ;;
  for_each (initial_param_step self step_time)
    (combine (params self) param_scale_factors) [].

End DefaultInitialParams.

(** *** The base class *)

Section BaseClass.

(** The swap-network primitive and the circuit assembly of the circuit
    library are not part of the sources; they are parameters.  The swap
    network calls the callback when it is called, so that an exception of
    the callback is part of the tree it gives, and the assembly raises
    it. *)
Variable OP_TREE : Type.
Variable swap_network :
  list Qid -> (Z -> Z -> Qid -> Qid -> result (list Operation)) ->
  bool -> bool -> OP_TREE.
Variable Circuit : Type.
Variable assemble : list OP_TREE -> result Circuit.

(** Modelled from the spec: the initialiser of the base class
    [VariationalAnsatz], which is not part of the sources.  It takes the
    qubit sequence it is given or, when it is given none or an empty one,
    the one of the default-generation hook [_generate_qubits]; then it builds
    the circuit, calling [operations] once on these qubits.  The circuit is
    not kept in the embedding; its assembly decides whether the construction
    succeeds. *)
Definition VariationalAnsatz_init (self : SwapNetworkTrotterHubbardAnsatz)
    (qs : option (list Qid)) : result SwapNetworkTrotterHubbardAnsatz :=
  let chosen := match qs with
                | Some (q :: l) => q :: l
                | _ => _generate_qubits self
                end in
  let self := mkAnsatz (x_dim self) (y_dim self) (tunneling self)
                (coulomb self) (periodic self) (iterations self)
                (adiabatic_evolution_time self) chosen in
  let trees := fst (operations OP_TREE swap_network self 0%nat [chosen]) in
  _ <- assemble trees ;;
  Ok self.

End BaseClass.

(** ** Auxiliary notions for the statements *)

(** The number of parameters one iteration contributes. *)
Definition params_per_iteration (self : SwapNetworkTrotterHubbardAnsatz)
    : Z :=
  (if 1 <? x_dim self then 1 else 0) + (if 1 <? y_dim self then 1 else 0) + 1.

(** The bound of one parameter, by its letter. *)
Definition bound_of (param : LetterWithSubscripts) : Q * Q :=
  if String.eqb (letter param) "V" then ((- 1)%Q, 1%Q) else ((- 2)%Q, 2%Q).

(** The canonical form of an exponent, as [_canonicalize_exponent] computes
    it when the period is not zero. *)
Definition canonical (e : Q) (p : Z) : Q :=
  let m := (e + inject_Z p / 2
            - inject_Z p
              * inject_Z (Qfloor ((e + inject_Z p / 2) / inject_Z p)))%Q in
  if Qle_bool (m - inject_Z p / 2) (inject_Z (- p) / 2)
  then (m - inject_Z p / 2 + inject_Z p)%Q
  else (m - inject_Z p / 2)%Q.

(** The default initial value of one parameter with its scale factor. *)
Definition initial_value (self : SwapNetworkTrotterHubbardAnsatz)
    (step_time : Q) (entry : LetterWithSubscripts * Q) : Q :=
  let '(param, scale_factor) := entry in
  if String.eqb (letter param) "Th" || String.eqb (letter param) "Tv" then
    (canonical (- tunneling self * step_time / Exponent.numpy_pi) 4
     / scale_factor)%Q
  else
    match subscripts param with
    | [i] =>
        (canonical
           (- (1 # 2) * coulomb self
            * ((1 # 2) * inject_Z (2 * i + 1) / inject_Z (iterations self))
            * step_time / Exponent.numpy_pi) 2
         / scale_factor)%Q
    | _ => 0%Q
    end.

(** The symbol a gate exponent is built on, and the symbol of a gate. *)
Fixpoint expr_symbol (e : Exponent_expr) : LetterWithSubscripts :=
  match e with
  | Sym s => s
  | Neg e' => expr_symbol e'
  end.

Definition gate_symbol (g : Gate) : LetterWithSubscripts :=
  match g with
  | ISwapPowGate e => expr_symbol e
  | CZPowGate e => expr_symbol e
  end.




(** * Properties *)

(** ** Lattice geometry *)

Section LatticeFacts.

Import Lattice.

Ltac split_tests :=
  repeat match goal with
  | |- context [ ?a =? ?b ] => destruct (Z.eqb_spec a b)
  | |- context [ ?a <? ?b ] => destruct (Z.ltb_spec a b)
  | |- context [ ?a <=? ?b ] => destruct (Z.leb_spec a b)
  | H : context [ ?a =? ?b ] |- _ => destruct (Z.eqb_spec a b)
  | H : context [ ?a <? ?b ] |- _ => destruct (Z.ltb_spec a b)
  | H : context [ ?a <=? ?b ] |- _ => destruct (Z.leb_spec a b)
  end.

(** On a lattice with at least one column the right neighbour is computed
    without an exception. *)
Lemma right_neighbor_ok site x y periodic :
  1 <= x ->
  exists r, _right_neighbor site x y periodic = Ok r
    /\ (forall s, r = Some s -> x <> 1 /\ (s = site + 1 \/ s = site + 1 - x)).
Proof.
  intros Hx. unfold _right_neighbor, py_mod.
  destruct (Z.eqb_spec x 1) as [->|Hx1].
  - eexists; split; [reflexivity|]. discriminate.
  - destruct (Z.eqb_spec x 0) as [->|_]; [lia|]. cbn.
    destruct (Z.eqb_spec ((site + 1) mod x) 0), periodic;
      eexists; (split; [reflexivity|]); intros s [= <-]; auto.
Qed.

Lemma bottom_neighbor_some site x y periodic s :
  _bottom_neighbor site x y periodic = Some s ->
  y <> 1 /\ ((s = site + x /\ site + x + 1 <= x * y)
             \/ (s = site + x - x * y /\ x * y < site + x + 1)).
Proof.
  unfold _bottom_neighbor.
  destruct (Z.eqb_spec y 1); [discriminate|].
  destruct (Z.ltb_spec (x * y) (site + x + 1)), periodic;
    intros [= <-] || discriminate; auto.
Qed.

Lemma horizontal_total p q x y periodic :
  1 <= x -> exists h, _is_horizontal_edge p q x y periodic = Ok h.
Proof.
  intros Hx. unfold _is_horizontal_edge.
  destruct (different_sectors p q (x * y)); [eauto|].
  destruct (fold_sector p q (x * y)) as [p' q'].
  destruct (right_neighbor_ok p' x y periodic Hx) as (rp & -> & _).
  destruct (right_neighbor_ok q' x y periodic Hx) as (rq & -> & _).
  cbn. destruct (eq_site q' rp); eauto.
Qed.

Lemma eq_site_true q r : eq_site q r = true -> r = Some q.
Proof.
  destruct r as [s|]; cbn; [|discriminate].
  intros H. apply Z.eqb_eq in H. now subst.
Qed.

Lemma horizontal_true p q x y periodic :
  1 <= x ->
  _is_horizontal_edge p q x y periodic = Ok true ->
  different_sectors p q (x * y) = false
  /\ x <> 1
  /\ let '(p', q') := fold_sector p q (x * y) in
     q' = p' + 1 \/ q' = p' + 1 - x \/ p' = q' + 1 \/ p' = q' + 1 - x.
Proof.
  intros Hx. unfold _is_horizontal_edge.
  destruct (different_sectors p q (x * y)); [discriminate|].
  destruct (fold_sector p q (x * y)) as [p' q'].
  destruct (right_neighbor_ok p' x y periodic Hx) as (rp & -> & Hp).
  destruct (right_neighbor_ok q' x y periodic Hx) as (rq & -> & Hq).
  cbn. destruct (eq_site q' rp) eqn:E.
  - intros _. apply eq_site_true in E. destruct (Hp _ E) as [? [?|?]]; tauto.
  - intros [= E']. apply eq_site_true in E'.
    destruct (Hq _ E') as [? [?|?]]; tauto.
Qed.

Lemma vertical_true p q x y periodic :
  _is_vertical_edge p q x y periodic = true ->
  different_sectors p q (x * y) = false
  /\ y <> 1
  /\ let '(p', q') := fold_sector p q (x * y) in
     (q' = p' + x /\ p' + x + 1 <= x * y)
     \/ (q' = p' + x - x * y /\ x * y < p' + x + 1)
     \/ (p' = q' + x /\ q' + x + 1 <= x * y)
     \/ (p' = q' + x - x * y /\ x * y < q' + x + 1).
Proof.
  unfold _is_vertical_edge.
  destruct (different_sectors p q (x * y)); [discriminate|].
  destruct (fold_sector p q (x * y)) as [p' q'].
  intros H. apply orb_true_iff in H as [H|H]; apply eq_site_true in H;
    apply bottom_neighbor_some in H as [? [?|?]]; tauto.
Qed.

Lemma fold_sector_spec p q n :
  different_sectors p q n = false ->
  0 <= p < 2 * n -> 0 <= q < 2 * n ->
  let '(p', q') := fold_sector p q n in
  0 <= p' < n /\ 0 <= q' < n /\ p' - q' = p - q.
Proof.
  unfold different_sectors, fold_sector. intros H Hp Hq.
  split_tests; cbn [andb orb] in *; try discriminate H; lia.
Qed.

(** C1: on a lattice of at least one row and one column, a pair of distinct
    qubit indices below [2 * x_dim * y_dim] satisfies at most one of the
    horizontal-edge, vertical-edge and same-site-opposite-spin predicates;
    the horizontal-edge predicate is computed without an exception. *)
Theorem edge_predicates_exclusive x y periodic p q :
  1 <= x -> 1 <= y ->
  0 <= p < 2 * x * y -> 0 <= q < 2 * x * y -> p <> q ->
  exists h,
    _is_horizontal_edge p q x y periodic = Ok h
    /\ (h && _is_vertical_edge p q x y periodic = false)
    /\ (h && _are_same_site_opposite_spin p q (x * y) = false)
    /\ (_is_vertical_edge p q x y periodic
        && _are_same_site_opposite_spin p q (x * y) = false).
Proof.
  intros Hx Hy Hp Hq Hpq.
  destruct (horizontal_total p q x y periodic Hx) as [h Hh].
  exists h. split; [exact Hh|].
  assert (Hs : forall p' q', 0 <= p' < x * y -> 0 <= q' < x * y ->
            p' - q' = p - q ->
            _are_same_site_opposite_spin p q (x * y) = false).
  { intros p' q' ? ? ?. unfold _are_same_site_opposite_spin.
    destruct (Z.eqb_spec (Z.abs (p - q)) (x * y)); [lia|reflexivity]. }
  assert (Hhs : h = true -> _are_same_site_opposite_spin p q (x * y) = false).
  { intros ->. apply horizontal_true in Hh as (Hd & _ & _); [|exact Hx].
    pose proof (fold_sector_spec p q (x * y) Hd ltac:(lia) ltac:(lia)) as F.
    destruct (fold_sector p q (x * y)) as [p' q'].
    destruct F as (? & ? & ?). apply (Hs p' q'); assumption. }
  assert (Hvs : _is_vertical_edge p q x y periodic = true ->
                _are_same_site_opposite_spin p q (x * y) = false).
  { intros Hv. apply vertical_true in Hv as (Hd & _ & _).
    pose proof (fold_sector_spec p q (x * y) Hd ltac:(lia) ltac:(lia)) as F.
    destruct (fold_sector p q (x * y)) as [p' q'].
    destruct F as (? & ? & ?). apply (Hs p' q'); assumption. }
  assert (Hhv : h = true -> _is_vertical_edge p q x y periodic = false).
  { intros ->. destruct (_is_vertical_edge p q x y periodic) eqn:Hv;
      [|reflexivity]. exfalso.
    apply horizontal_true in Hh as (Hd & Hx1 & Hh); [|exact Hx].
    apply vertical_true in Hv as (_ & Hy1 & Hv).
    pose proof (fold_sector_spec p q (x * y) Hd ltac:(lia) ltac:(lia)) as F.
    destruct (fold_sector p q (x * y)) as [p' q'].
    destruct F as (? & ? & ?).
    destruct Hh as [?|[?|[?|?]]], Hv as [[? ?]|[[? ?]|[[? ?]|[? ?]]]];
      subst; nia. }
  repeat split.
  - destruct h; [cbn; auto|reflexivity].
  - destruct h; [cbn; auto|reflexivity].
  - destruct (_is_vertical_edge p q x y periodic); [cbn; auto|reflexivity].
Qed.

Lemma edge_predicates_exclusive_witness :
  exists h,
    _is_horizontal_edge 0 1 2 2 true = Ok h
    /\ (h && _is_vertical_edge 0 1 2 2 true = false)
    /\ (h && _are_same_site_opposite_spin 0 1 (2 * 2) = false)
    /\ (_is_vertical_edge 0 1 2 2 true
        && _are_same_site_opposite_spin 0 1 (2 * 2) = false).
Proof.
  apply (edge_predicates_exclusive 2 2 true 0 1); lia.
Defined.

(** *** The neighbour functions *)

Lemma right_edge_iff site x :
  1 <= x -> ((site + 1) mod x = 0 <-> site mod x = x - 1).
Proof.
  intros Hx. split; intros H.
  - pose proof (Z.div_mod (site + 1) x ltac:(lia)) as D. rewrite H in D.
    symmetry. apply (Z.mod_unique site x ((site + 1) / x - 1) (x - 1)); lia.
  - pose proof (Z.div_mod site x ltac:(lia)) as D. rewrite H in D.
    symmetry. apply (Z.mod_unique (site + 1) x (site / x + 1) 0); lia.
Qed.

Lemma bottom_row_iff site x y :
  1 <= x -> 0 <= site < x * y ->
  (x * y < site + x + 1 <-> site / x = y - 1).
Proof.
  intros Hx Hs. split; intros H.
  - symmetry. apply (Z.div_unique site x (y - 1) (site - x * (y - 1))).
    + left. nia.
    + ring.
  - pose proof (Z.mul_div_le site x ltac:(lia)) as L. rewrite H in L. nia.
Qed.

Lemma right_neighbor_periodic site x y :
  1 < x -> 1 <= y -> 0 <= site < x * y ->
  exists s, _right_neighbor site x y true = Ok (Some s) /\ 0 <= s < x * y.
Proof.
  intros Hx Hy Hs. unfold _right_neighbor, py_mod.
  destruct (Z.eqb_spec x 1); [lia|]. destruct (Z.eqb_spec x 0); [lia|]. cbn.
  destruct (Z.eqb_spec ((site + 1) mod x) 0) as [E|E];
    eexists; (split; [reflexivity|]).
  - pose proof (Z.div_mod (site + 1) x ltac:(lia)) as D. rewrite E in D.
    assert (1 <= (site + 1) / x) by nia. nia.
  - assert (site + 1 <> x * y); [|lia].
    intros C. apply E. rewrite C, Z.mul_comm. apply Z.mod_mul. lia.
Qed.

Lemma bottom_neighbor_periodic site x y :
  1 <= x -> 1 < y -> 0 <= site < x * y ->
  exists s, _bottom_neighbor site x y true = Some s /\ 0 <= s < x * y.
Proof.
  intros Hx Hy Hs. unfold _bottom_neighbor.
  destruct (Z.eqb_spec y 1); [lia|].
  destruct (Z.ltb_spec (x * y) (site + x + 1));
    eexists; (split; [reflexivity|]); nia.
Qed.

Lemma right_neighbor_open site x y :
  1 <= x ->
  (_right_neighbor site x y false = Ok None <-> site mod x = x - 1).
Proof.
  intros Hx. rewrite <- right_edge_iff by exact Hx.
  unfold _right_neighbor, py_mod.
  destruct (Z.eqb_spec x 1) as [->|Hx1].
  - rewrite Z.mod_1_r. tauto.
  - destruct (Z.eqb_spec x 0); [lia|]. cbn.
    destruct (Z.eqb_spec ((site + 1) mod x) 0); split;
      congruence || discriminate.
Qed.

Lemma bottom_neighbor_open site x y :
  1 <= x -> 1 <= y -> 0 <= site < x * y ->
  (_bottom_neighbor site x y false = None <-> site / x = y - 1).
Proof.
  intros Hx Hy Hs. rewrite <- bottom_row_iff by assumption.
  unfold _bottom_neighbor.
  destruct (Z.eqb_spec y 1) as [->|Hy1].
  - split; [lia|reflexivity].
  - destruct (Z.ltb_spec (x * y) (site + x + 1)); split;
      congruence || discriminate || lia.
Qed.

(** C2, the claim as it stands fails: on a lattice of a single column the
    right neighbour is "no neighbour" although the lattice is periodic, and
    likewise the bottom neighbour on a lattice of a single row. *)
Lemma periodic_neighbor_of_single_line :
  ~ (exists s, _right_neighbor 0 1 1 true = Ok (Some s) /\ 0 <= s < 1 * 1)
  /\ ~ (exists s, _bottom_neighbor 0 1 1 true = Some s /\ 0 <= s < 1 * 1).
Proof.
  split; intros (s & H & _); discriminate H.
Qed.

(** C2, amended: for a site of the lattice, with [periodic = true] the
    right neighbour is a site of the lattice when there are at least two
    columns and is "no neighbour" when there is one, and the bottom neighbour
    is a site of the lattice when there are at least two rows and is "no
    neighbour" when there is one; with [periodic = false] the right neighbour
    is "no neighbour" exactly for the sites in the last column and the bottom
    neighbour exactly for the sites in the last row. *)
Theorem neighbors_at_the_boundary site x y :
  1 <= x -> 1 <= y -> 0 <= site < x * y ->
  (1 < x -> exists s,
     _right_neighbor site x y true = Ok (Some s) /\ 0 <= s < x * y)
  /\ (x = 1 -> _right_neighbor site x y true = Ok None)
  /\ (1 < y -> exists s,
        _bottom_neighbor site x y true = Some s /\ 0 <= s < x * y)
  /\ (y = 1 -> _bottom_neighbor site x y true = None)
  /\ (_right_neighbor site x y false = Ok None <-> site mod x = x - 1)
  /\ (_bottom_neighbor site x y false = None <-> site / x = y - 1).
Proof.
  intros Hx Hy Hs.
  refine (conj _ (conj _ (conj _ (conj _ (conj _ _))))).
  - intros H. now apply right_neighbor_periodic.
  - intros ->. reflexivity.
  - intros H. now apply bottom_neighbor_periodic.
  - intros ->. reflexivity.
  - now apply right_neighbor_open.
  - now apply bottom_neighbor_open.
Qed.

Lemma neighbors_at_the_boundary_witness :
  (1 < 3 -> exists s,
     _right_neighbor 5 3 2 true = Ok (Some s) /\ 0 <= s < 3 * 2)
  /\ (3 = 1 -> _right_neighbor 5 3 2 true = Ok None)
  /\ (1 < 2 -> exists s,
        _bottom_neighbor 5 3 2 true = Some s /\ 0 <= s < 3 * 2)
  /\ (2 = 1 -> _bottom_neighbor 5 3 2 true = None)
  /\ (_right_neighbor 5 3 2 false = Ok None <-> 5 mod 3 = 3 - 1)
  /\ (_bottom_neighbor 5 3 2 false = None <-> 5 / 3 = 2 - 1).
Proof.
  apply (neighbors_at_the_boundary 5 3 2); lia.
Defined.

(** *** Symmetry of the edge predicates *)

Lemma different_sectors_sym p q n :
  different_sectors p q n = different_sectors q p n.
Proof. unfold different_sectors. apply orb_comm. Qed.

Lemma fold_sector_sym p q n :
  fold_sector q p n = (snd (fold_sector p q n), fst (fold_sector p q n)).
Proof.
  unfold fold_sector. rewrite (andb_comm (n <=? q)).
  now destruct ((n <=? p) && (n <=? q)).
Qed.

(** Whether the right neighbour raises depends on the number of columns
    only. *)
Lemma right_neighbor_raises site site' x y periodic e :
  _right_neighbor site x y periodic = Raise e ->
  _right_neighbor site' x y periodic = Raise e.
Proof.
  unfold _right_neighbor, py_mod.
  destruct (x =? 1); [discriminate|].
  destruct (x =? 0); [trivial|]. cbn.
  destruct ((site + 1) mod x =? 0), periodic; discriminate.
Qed.

(** C10: each of the three edge predicates gives the same result, or raises
    the same exception, when its first two arguments are exchanged. *)
Theorem edge_predicates_symmetric p q x y periodic n_sites :
  _is_horizontal_edge p q x y periodic = _is_horizontal_edge q p x y periodic
  /\ _is_vertical_edge p q x y periodic = _is_vertical_edge q p x y periodic
  /\ _are_same_site_opposite_spin p q n_sites
     = _are_same_site_opposite_spin q p n_sites.
Proof.
  repeat apply conj.
  - unfold _is_horizontal_edge.
    rewrite (different_sectors_sym q p), (fold_sector_sym p q).
    destruct (different_sectors p q (x * y)); [reflexivity|].
    destruct (fold_sector p q (x * y)) as [p' q']. cbn [fst snd].
    destruct (_right_neighbor p' x y periodic) as [rp|e] eqn:Ep;
      destruct (_right_neighbor q' x y periodic) as [rq|e'] eqn:Eq; cbn.
    + now destruct (eq_site q' rp), (eq_site p' rq).
    + apply (right_neighbor_raises _ p') in Eq. congruence.
    + apply (right_neighbor_raises _ q') in Ep. congruence.
    + apply (right_neighbor_raises _ q') in Ep. congruence.
  - unfold _is_vertical_edge.
    rewrite (different_sectors_sym q p), (fold_sector_sym p q).
    destruct (different_sectors p q (x * y)); [reflexivity|].
    destruct (fold_sector p q (x * y)) as [p' q']. cbn [fst snd].
    apply orb_comm.
  - unfold _are_same_site_opposite_spin.
    replace (q - p) with (- (p - q)) by lia. now rewrite Z.abs_opp.
Qed.

End LatticeFacts.

(** ** Exponent canonicalisation *)

Section ExponentFacts.

Import Exponent.
Local Open Scope Q_scope.


(** The floor of a rational is the only integer within one below it. *)
Lemma Qfloor_unique (x : Q) (n : Z) :
  inject_Z n <= x -> x < inject_Z (n + 1) -> Qfloor x = n.
Proof.
  intros Hle Hlt.
  pose proof (Qfloor_le x) as Fle. pose proof (Qlt_floor x) as Flt.
  assert (n < Qfloor x + 1)%Z
    by (rewrite Zlt_Qlt; eapply Qle_lt_trans; eassumption).
  assert (Qfloor x < n + 1)%Z
    by (rewrite Zlt_Qlt; eapply Qle_lt_trans; eassumption).
  lia.
Qed.

Lemma Qfloor_shift (x : Q) (k : Z) :
  Qfloor (x + inject_Z k) = (Qfloor x + k)%Z.
Proof.
  apply Qfloor_unique.
  - rewrite inject_Z_plus. apply Qplus_le_l, Qfloor_le.
  - replace (Qfloor x + k + 1)%Z with (Qfloor x + 1 + k)%Z by ring.
    rewrite (inject_Z_plus (Qfloor x + 1)). apply Qplus_lt_l, Qlt_floor.
Qed.

Lemma period_positive (p : Z) : (0 < p)%Z -> 0 < inject_Z p.
Proof. intros H. now rewrite Zlt_Qlt in H. Qed.

Lemma period_nonzero (p : Q) : 0 < p -> Qeq_bool p 0 = false.
Proof.
  intros H. destruct (Qeq_bool p 0) eqn:E; [|reflexivity].
  apply Qeq_bool_iff in E. rewrite E in H. now apply Qlt_irrefl in H.
Qed.

(** The remainder of a division by a positive number lies in [[0, y)]. *)
Lemma py_fmod_range (x y : Q) :
  0 < y ->
  exists m, py_fmod x y = Ok m
    /\ m = x - y * inject_Z (Qfloor (x / y)) /\ 0 <= m /\ m < y.
Proof.
  intros Hy. unfold py_fmod. rewrite (period_nonzero y Hy).
  eexists; split; [reflexivity|]. split; [reflexivity|].
  assert (Hne : ~ y == 0)
    by (intros E; rewrite E in Hy; now apply Qlt_irrefl in Hy).
  pose proof (Qmult_div_r x y Hne) as D.
  pose proof (Qfloor_le (x / y)) as Fle.
  pose proof (Qlt_floor (x / y)) as Flt.
  rewrite inject_Z_plus in Flt.
  apply (Qmult_le_l _ _ y Hy) in Fle.
  apply (Qmult_lt_l _ _ y Hy) in Flt.
  rewrite D in Fle, Flt.
  set (f := inject_Z (Qfloor (x / y))) in *.
  split.
  - apply (Qplus_le_l _ _ (y * f)). ring_simplify. exact Fle.
  - apply (Qplus_lt_l _ _ (y * f)). ring_simplify.
    setoid_replace (y * f + y) with (y * (f + inject_Z 1)) by ring.
    exact Flt.
Qed.

(** The steps of [_canonicalize_exponent] for a positive period: [m] is the
    exponent after the reduction modulo the period. *)
Lemma canonicalize_steps (e : Q) (p : Z) :
  (0 < p)%Z ->
  exists m,
    m = e + inject_Z p / 2
        - inject_Z p * inject_Z (Qfloor ((e + inject_Z p / 2) / inject_Z p))
    /\ 0 <= m /\ m < inject_Z p
    /\ _canonicalize_exponent e p
       = Ok (if Qle_bool (m - inject_Z p / 2) (inject_Z (- p) / 2)
             then m - inject_Z p / 2 + inject_Z p
             else m - inject_Z p / 2).
Proof.
  intros Hp. apply period_positive in Hp.
  destruct (py_fmod_range (e + inject_Z p / 2) (inject_Z p) Hp)
    as (m & Hm & Em & Hlo & Hhi).
  exists m. repeat (split; [assumption|]).
  unfold _canonicalize_exponent. rewrite Hm. cbn.
  now destruct (Qle_bool (m - inject_Z p / 2) (inject_Z (- p) / 2)).
Qed.






End ExponentFacts.

(** ** Exponent canonicalisation in binary64 *)

Section Binary64Facts.






End Binary64Facts.




(** ** The parameters and their bounds *)

Section ParamsFacts.

Variable self : SwapNetworkTrotterHubbardAnsatz.

Lemma in_range (n i : Z) : In i (range n) <-> 0 <= i < n.
Proof.
  unfold range. rewrite in_map_iff. split.
  - intros (k & <- & Hk). apply in_seq in Hk. lia.
  - intros Hi. exists (Z.to_nat i). rewrite in_seq. split; lia.
Qed.

Lemma NoDup_range (n : Z) : NoDup (range n).
Proof.
  unfold range. apply Injective_map_NoDup; [|apply seq_NoDup].
  intros a b. apply Nat2Z.inj.
Qed.

(** The loop of [params] visits the indices [i, i+1, ..., i+n-1] in
    order. *)
Lemma params_from_flat_map (n : nat) (i : Z) :
  params_from self n i
  = flat_map (params_body self) (map (fun k => i + Z.of_nat k) (seq 0 n)).
Proof.
  revert i. induction n as [|n IH]; intros i; [reflexivity|].
  cbn [params_from seq map flat_map]. rewrite Z.add_0_r. f_equal.
  rewrite IH, <- seq_shift, map_map. f_equal.
  apply map_ext. intros k. lia.
Qed.

Lemma params_flat_map :
  params self = flat_map (params_body self) (range (iterations self)).
Proof.
  unfold params, range. rewrite params_from_flat_map. reflexivity.
Qed.

Lemma in_params_body (s : LetterWithSubscripts) (i : Z) :
  In s (params_body self i) <->
  (s = Letter "Th" i /\ 1 < x_dim self)
  \/ (s = Letter "Tv" i /\ 1 < y_dim self)
  \/ s = Letter "V" i.
Proof.
  unfold params_body.
  destruct (Z.ltb_spec 1 (x_dim self)), (Z.ltb_spec 1 (y_dim self));
    cbn; intuition (subst; auto; try lia; try discriminate).
Qed.

Lemma NoDup_params_body (i : Z) : NoDup (params_body self i).
Proof.
  unfold params_body.
  destruct (1 <? x_dim self), (1 <? y_dim self); cbn;
    repeat constructor; cbn; intuition discriminate.
Qed.

Lemma params_body_subscript (s : LetterWithSubscripts) (i : Z) :
  In s (params_body self i) -> subscripts s = [i].
Proof.
  rewrite in_params_body. intros [[-> _]|[[-> _]| ->]]; reflexivity.
Qed.

Lemma NoDup_flat_map {A B : Type} (f : A -> list B) (l : list A) :
  NoDup l ->
  (forall x, In x l -> NoDup (f x)) ->
  (forall x y b, In x l -> In y l -> In b (f x) -> In b (f y) -> x = y) ->
  NoDup (flat_map f l).
Proof.
  induction 1 as [|a l Ha Hl IH]; intros Hf Hsep; cbn; [constructor|].
  apply NoDup_app.
  - apply Hf. now left.
  - apply IH.
    + intros x Hx. apply Hf. now right.
    + intros x y b Hx Hy. apply Hsep; now right.
  - intros b Hb Hb'. apply in_flat_map in Hb' as (y & Hy & Hby).
    assert (a = y) by (apply (Hsep a y b); cbn; auto).
    subst. contradiction.
Qed.

Lemma NoDup_params : NoDup (params self).
Proof.
  rewrite params_flat_map. apply NoDup_flat_map.
  - apply NoDup_range.
  - intros i _. apply NoDup_params_body.
  - intros i j s _ _ Hi Hj.
    apply params_body_subscript in Hi, Hj. congruence.
Qed.

Lemma in_params (s : LetterWithSubscripts) :
  In s (params self) <->
  exists i, 0 <= i < iterations self
    /\ ((s = Letter "Th" i /\ 1 < x_dim self)
        \/ (s = Letter "Tv" i /\ 1 < y_dim self)
        \/ s = Letter "V" i).
Proof.
  rewrite params_flat_map, in_flat_map.
  split; intros (i & Hi & Hs); exists i.
  - now rewrite <- in_range, <- in_params_body.
  - now rewrite in_range, in_params_body.
Qed.

(** The letter of a parameter of the ansatz is one of the three. *)
Lemma params_letter (s : LetterWithSubscripts) :
  In s (params self) ->
  exists i, subscripts s = [i]
    /\ (letter s = "Th" \/ letter s = "Tv" \/ letter s = "V")%string.
Proof.
  rewrite in_params. intros (i & _ & [[-> _]|[[-> _]| ->]]);
    exists i; cbn; auto.
Qed.

Lemma length_params_body (i : Z) :
  Z.of_nat (List.length (params_body self i)) = params_per_iteration self.
Proof.
  unfold params_body, params_per_iteration.
  now destruct (1 <? x_dim self), (1 <? y_dim self).
Qed.

Lemma length_params_from (n : nat) (i : Z) :
  Z.of_nat (List.length (params_from self n i))
  = Z.of_nat n * params_per_iteration self.
Proof.
  revert i. induction n as [|n IH]; intros i; [reflexivity|].
  cbn [params_from]. rewrite length_app, Nat2Z.inj_add, IH,
    length_params_body. lia.
Qed.

Lemma length_params :
  0 <= iterations self ->
  Z.of_nat (List.length (params self))
  = iterations self * params_per_iteration self.
Proof.
  intros H. unfold params. now rewrite length_params_from, Z2Nat.id.
Qed.

Lemma fold_bounds_step (l : list LetterWithSubscripts) (acc : list (Q * Q)) :
  fold_left bounds_step l acc = acc ++ map bound_of l.
Proof.
  revert acc. induction l as [|a l IH]; intros acc; cbn.
  - now rewrite app_nil_r.
  - rewrite IH. unfold bounds_step, bound_of. rewrite <- app_assoc.
    now destruct (String.eqb (letter a) "V").
Qed.

Lemma param_bounds_map : param_bounds self = map bound_of (params self).
Proof. unfold param_bounds. now rewrite fold_bounds_step. Qed.

End ParamsFacts.

(** C5: [params] yields, for each index [i] of [range(iterations)] in
    increasing order, ['Th'(i)] exactly when [x_dim > 1], then ['Tv'(i)]
    exactly when [y_dim > 1], then ['V'(i)]; no symbol is yielded twice and
    each symbol that is due is yielded; for [x_dim = 2], [y_dim = 1] and one
    iteration the sequence is ['Th'(0)], ['V'(0)]. *)
Theorem params_sequence (self : SwapNetworkTrotterHubbardAnsatz) :
  params self
  = flat_map
      (fun i => (if 1 <? x_dim self then [Letter "Th" i] else [])
                ++ (if 1 <? y_dim self then [Letter "Tv" i] else [])
                ++ [Letter "V" i])
      (range (iterations self))
  /\ NoDup (params self)
  /\ (forall s, In s (params self) <->
        exists i, 0 <= i < iterations self
          /\ ((s = Letter "Th" i /\ 1 < x_dim self)
              \/ (s = Letter "Tv" i /\ 1 < y_dim self)
              \/ s = Letter "V" i))
  /\ (x_dim self = 2 -> y_dim self = 1 -> iterations self = 1 ->
      params self = [Letter "Th" 0; Letter "V" 0]).
Proof.
  split; [exact (params_flat_map self)|].
  split; [exact (NoDup_params self)|].
  split; [exact (in_params self)|].
  intros Hx Hy Hi. unfold params. rewrite Hi.
  change (Z.to_nat 1) with 1%nat. cbn [params_from].
  unfold params_body. now rewrite Hx, Hy.
Qed.

Lemma params_sequence_witness :
  params (mkAnsatz 2 1 1 2 false 1 (1 # 5) [])
  = [Letter "Th" 0; Letter "V" 0].
Proof.
  apply (params_sequence (mkAnsatz 2 1 1 2 false 1 (1 # 5) []));
    reflexivity.
Defined.

(** C6: for a non-negative number of iterations, [param_bounds] has the
    length of [params]; its entry at the position of a parameter of letter
    ['V'] is (-1, 1) and at the position of a parameter of letter ['Th'] or
    ['Tv'] is (-2, 2); the common length is
    [iterations * ((1 if x_dim > 1 else 0) + (1 if y_dim > 1 else 0) + 1)]. *)
Theorem param_bounds_aligned (self : SwapNetworkTrotterHubbardAnsatz) :
  0 <= iterations self ->
  List.length (param_bounds self) = List.length (params self)
  /\ (forall k param,
        nth_error (params self) k = Some param ->
        (letter param = "V"%string ->
         nth_error (param_bounds self) k = Some ((- 1)%Q, 1%Q))
        /\ (letter param = "Th"%string \/ letter param = "Tv"%string ->
            nth_error (param_bounds self) k = Some ((- 2)%Q, 2%Q)))
  /\ Z.of_nat (List.length (params self))
     = iterations self
       * ((if 1 <? x_dim self then 1 else 0)
          + (if 1 <? y_dim self then 1 else 0) + 1).
Proof.
  intros Hi. rewrite param_bounds_map.
  split; [apply length_map|].
  split; [|exact (length_params self Hi)].
  intros k param Hk. apply (map_nth_error bound_of) in Hk. rewrite Hk.
  unfold bound_of. split.
  - intros ->. reflexivity.
  - intros [-> | ->]; reflexivity.
Qed.

Lemma param_bounds_aligned_witness :
  let self := mkAnsatz 2 2 1 2 true 2 (2 # 5) [] in
  List.length (param_bounds self) = List.length (params self)
  /\ (forall k param,
        nth_error (params self) k = Some param ->
        (letter param = "V"%string ->
         nth_error (param_bounds self) k = Some ((- 1)%Q, 1%Q))
        /\ (letter param = "Th"%string \/ letter param = "Tv"%string ->
            nth_error (param_bounds self) k = Some ((- 2)%Q, 2%Q)))
  /\ Z.of_nat (List.length (params self))
     = iterations self
       * ((if 1 <? x_dim self then 1 else 0)
          + (if 1 <? y_dim self then 1 else 0) + 1).
Proof.
  intros self. apply (param_bounds_aligned self). cbn. lia.
Defined.

(** ** The default initial parameters *)

Section DefaultInitialParamsFacts.

Import Exponent.
Local Open Scope Q_scope.

Lemma py_div_ok (x y : Q) : ~ y == 0 -> py_div x y = Ok (x / y).
Proof.
  intros Hy. unfold py_div. destruct (Qeq_bool y 0) eqn:E; [|reflexivity].
  apply Qeq_bool_iff in E. contradiction.
Qed.

Lemma numpy_pi_nonzero : ~ numpy_pi == 0.
Proof. discriminate. Qed.

Lemma canonicalize_total (e : Q) (p : Z) :
  (0 < p)%Z -> _canonicalize_exponent e p = Ok (canonical e p).
Proof.
  intros Hp. destruct (canonicalize_steps e p Hp) as (m & -> & _ & _ & ->).
  reflexivity.
Qed.

Lemma nth_error_combine {A B : Type} (l : list A) (l' : list B) (k : nat)
    (a : A) (b : B) :
  nth_error l k = Some a -> nth_error l' k = Some b ->
  nth_error (combine l l') k = Some (a, b).
Proof.
  revert l' k. induction l as [|x l IH]; intros [|y l'] [|k]; cbn;
    try discriminate.
  - now intros [= ->] [= ->].
  - apply IH.
Qed.

Lemma in_combine_both {A B : Type} (l : list A) (l' : list B) (a : A)
    (b : B) :
  In (a, b) (combine l l') -> In a l /\ In b l'.
Proof.
  intros H. split; [eapply in_combine_l|eapply in_combine_r]; eassumption.
Qed.

Variable self : SwapNetworkTrotterHubbardAnsatz.
Variable step_time : Q.
Hypothesis iterations_nonzero : ~ inject_Z (iterations self) == 0.

Lemma initial_param_step_ok (acc : list Q) (param : LetterWithSubscripts)
    (s : Q) :
  In param (params self) -> ~ s == 0 ->
  initial_param_step self step_time acc (param, s)
  = Ok (acc ++ [initial_value self step_time (param, s)]).
Proof.
  intros Hin Hs. destruct (params_letter self param Hin) as (i & Hi & Hl).
  unfold initial_param_step, initial_value. rewrite Hi.
  destruct Hl as [-> | [-> | ->]]; cbn [String.eqb Ascii.eqb Bool.eqb orb].
  - rewrite (py_div_ok _ _ numpy_pi_nonzero). cbn [bind].
    rewrite canonicalize_total by reflexivity. cbn [bind].
    now rewrite (py_div_ok _ _ Hs).
  - rewrite (py_div_ok _ _ numpy_pi_nonzero). cbn [bind].
    rewrite canonicalize_total by reflexivity. cbn [bind].
    now rewrite (py_div_ok _ _ Hs).
  - rewrite (py_div_ok _ _ iterations_nonzero). cbn [bind].
    rewrite (py_div_ok _ _ numpy_pi_nonzero). cbn [bind].
    rewrite canonicalize_total by reflexivity. cbn [bind].
    now rewrite (py_div_ok _ _ Hs).
Qed.

Lemma for_each_initial_params (l : list (LetterWithSubscripts * Q))
    (acc : list Q) :
  (forall param s, In (param, s) l ->
     In param (params self) /\ ~ s == 0) ->
  for_each (initial_param_step self step_time) l acc
  = Ok (acc ++ map (initial_value self step_time) l).
Proof.
  revert acc. induction l as [|[param s] l IH]; intros acc Hl;
    cbn [for_each map].
  - now rewrite app_nil_r.
  - destruct (Hl param s (or_introl eq_refl)) as [Hin Hs].
    rewrite (initial_param_step_ok acc param s Hin Hs). cbn [bind].
    rewrite IH, <- app_assoc; [reflexivity|].
    intros param' s' H'. apply Hl. now right.
Qed.

End DefaultInitialParamsFacts.

(** C7: with at least one iteration and one non-zero scale factor per
    parameter, [default_initial_params] returns an array aligned with
    [params]: with [step_time = adiabatic_evolution_time / iterations], the
    entry of a ['Th'] or ['Tv'] parameter is the canonical form, for period
    4, of [-tunneling * step_time / pi], divided by the scale factor, and the
    entry of ['V'(i)] is the canonical form, for period 2, of
    [-0.5 * coulomb * (0.5 * (2 i + 1) / iterations) * step_time / pi],
    divided by the scale factor.  When no evolution time is given to the
    initialiser, it is [0.1 * |coulomb| * iterations]. *)
Theorem default_initial_params_aligned
    (self : SwapNetworkTrotterHubbardAnsatz) (scale_factors : list Q) :
  1 <= iterations self ->
  List.length scale_factors = List.length (params self) ->
  Forall (fun s => ~ s == 0)%Q scale_factors ->
  let step_time :=
    (adiabatic_evolution_time self / inject_Z (iterations self))%Q in
  (exists arr,
     default_initial_params scale_factors self = Ok arr
     /\ List.length arr = List.length (params self)
     /\ forall k param s,
          nth_error (params self) k = Some param ->
          nth_error scale_factors k = Some s ->
          (letter param = "Th"%string \/ letter param = "Tv"%string ->
           exists c,
             Exponent._canonicalize_exponent
               (- tunneling self * step_time / Exponent.numpy_pi)%Q 4 = Ok c
             /\ nth_error arr k = Some (c / s)%Q)
          /\ (forall i, param = Letter "V" i ->
              exists c,
                Exponent._canonicalize_exponent
                  (- (1 # 2) * coulomb self
                   * ((1 # 2) * inject_Z (2 * i + 1)
                      / inject_Z (iterations self))
                   * step_time / Exponent.numpy_pi)%Q 2 = Ok c
                /\ nth_error arr k = Some (c / s)%Q))
  /\ (forall super_init x y t c per it qs,
        __init__ super_init x y t c per it None qs
        = super_init
            (mkAnsatz x y t c per it ((1 # 10) * Qabs c * inject_Z it)%Q [])
            qs).
Proof.
  intros Hit Hlen Hsf step_time. split; [|reflexivity].
  assert (Hnz : ~ (inject_Z (iterations self) == 0)%Q).
  { intros E. assert (0 < inject_Z (iterations self))%Q as P
      by (apply period_positive; lia).
    rewrite E in P. now apply Qlt_irrefl in P. }
  unfold default_initial_params.
  rewrite (py_div_ok _ _ Hnz). cbn [bind]. fold step_time.
  rewrite (for_each_initial_params self step_time Hnz).
  - eexists. split; [reflexivity|]. cbn [app]. split.
    + rewrite length_map, length_combine. lia.
    + intros k param s Hk Hs.
      pose proof (nth_error_combine _ _ _ _ _ Hk Hs) as Hks.
      apply (map_nth_error (initial_value self step_time)) in Hks.
      rewrite Hks. unfold initial_value. split.
      * intros Hl. exists (canonical
          (- tunneling self * step_time / Exponent.numpy_pi)%Q 4).
        split; [now apply canonicalize_total|].
        now destruct Hl as [-> | ->].
      * intros i ->. eexists. split; [now apply canonicalize_total|].
        reflexivity.
  - intros param s H. apply in_combine_both in H as [Hp Hs]. split.
    + exact Hp.
    + rewrite Forall_forall in Hsf. now apply Hsf.
Qed.

Lemma default_initial_params_aligned_witness :
  let self := mkAnsatz 2 2 1 2 true 2 (2 # 5) [] in
  let scale_factors := [1; 1; 1; 1; 1; 1]%Q in
  let step_time :=
    (adiabatic_evolution_time self / inject_Z (iterations self))%Q in
  (exists arr,
     default_initial_params scale_factors self = Ok arr
     /\ List.length arr = List.length (params self)
     /\ forall k param s,
          nth_error (params self) k = Some param ->
          nth_error scale_factors k = Some s ->
          (letter param = "Th"%string \/ letter param = "Tv"%string ->
           exists c,
             Exponent._canonicalize_exponent
               (- tunneling self * step_time / Exponent.numpy_pi)%Q 4 = Ok c
             /\ nth_error arr k = Some (c / s)%Q)
          /\ (forall i, param = Letter "V" i ->
              exists c,
                Exponent._canonicalize_exponent
                  (- (1 # 2) * coulomb self
                   * ((1 # 2) * inject_Z (2 * i + 1)
                      / inject_Z (iterations self))
                   * step_time / Exponent.numpy_pi)%Q 2 = Ok c
                /\ nth_error arr k = Some (c / s)%Q))
  /\ (forall super_init x y t c per it qs,
        __init__ super_init x y t c per it None qs
        = super_init
            (mkAnsatz x y t c per it ((1 # 10) * Qabs c * inject_Z it)%Q [])
            qs).
Proof.
  intros self scale_factors.
  apply (default_initial_params_aligned self scale_factors).
  - cbn. lia.
  - reflexivity.
  - repeat constructor; discriminate.
Defined.

(** ** Construction *)

Section ConstructionFacts.

Variable OP_TREE : Type.
Variable swap_network :
  list Qid -> (Z -> Z -> Qid -> Qid -> result (list Operation)) ->
  bool -> bool -> OP_TREE.

(** Without iterations [operations] yields nothing and makes no sequence. *)
Lemma operations_without_iterations
    (self : SwapNetworkTrotterHubbardAnsatz) (qubits : ref) (s : store) :
  iterations self <= 0 ->
  operations OP_TREE swap_network self qubits s = ([], s).
Proof.
  intros H. unfold operations.
  now replace (Z.to_nat (iterations self)) with 0%nat by lia.
Qed.

Lemma default_initial_params_zero_iterations
    (self : SwapNetworkTrotterHubbardAnsatz) (scale_factors : list Q) :
  iterations self = 0 ->
  default_initial_params scale_factors self = Raise ZeroDivisionError.
Proof.
  intros H. unfold default_initial_params. now rewrite H.
Qed.

End ConstructionFacts.

(** C8, the claim as it stands fails: with zero iterations the ansatz is
    constructed, even when the circuit assembly rejects every tree of
    operations, and whatever [x_dim] and [y_dim] are; the failure comes
    later, from [default_initial_params]. *)
Lemma construction_of_degenerate_ansatz :
  let swap_network :=
    fun (l : list Qid)
        (f : Z -> Z -> Qid -> Qid -> result (list Operation))
        (fermionic offset : bool) => tt in
  let assemble :=
    fun trees : list unit =>
      match trees with
      | [] => Ok tt
      | _ :: _ => Raise ValueError
      end in
  (exists a,
     __init__ (VariationalAnsatz_init unit swap_network unit assemble)
       2 2 1 2 true 0 None None = Ok a
     /\ default_initial_params [] a = Raise ZeroDivisionError)
  /\ (exists a,
        __init__ (VariationalAnsatz_init unit swap_network unit assemble)
          0 (-1) 1 2 true 0 None None = Ok a
        /\ default_initial_params [] a = Raise ZeroDivisionError).
Proof.
  intros swap_network assemble.
  split; eexists; split; reflexivity.
Qed.

(** C8, amended: the initialiser does not look at [x_dim], [y_dim] and
    [iterations]: it stores them as they are, and its outcome is that of the
    initialiser of the base class.  When [iterations] is zero or negative no
    operation is generated, and the construction succeeds whatever [x_dim]
    and [y_dim] are, provided that assembling an empty circuit succeeds; for
    zero iterations it is [default_initial_params] that raises, on its
    division by [iterations]. *)
Theorem construction_does_not_validate
    (OP_TREE : Type)
    (swap_network :
       list Qid -> (Z -> Z -> Qid -> Qid -> result (list Operation)) ->
       bool -> bool -> OP_TREE)
    (Circuit : Type) (assemble : list OP_TREE -> result Circuit)
    (empty : Circuit)
    (x y : Z) (t c : Q) (per : bool) (it : Z) (aet : option Q)
    (qs : option (list Qid)) :
  assemble [] = Ok empty ->
  (forall super_init,
     exists self,
       x_dim self = x /\ y_dim self = y /\ iterations self = it
       /\ __init__ super_init x y t c per it aet qs = super_init self qs)
  /\ (it <= 0 ->
      exists a,
        __init__ (VariationalAnsatz_init OP_TREE swap_network Circuit
                    assemble) x y t c per it aet qs = Ok a
        /\ x_dim a = x /\ y_dim a = y /\ iterations a = it)
  /\ (forall a scale_factors,
        iterations a = 0 ->
        default_initial_params scale_factors a = Raise ZeroDivisionError).
Proof.
  intros Hempty. split; [|split].
  - intros super_init. eexists. repeat split; reflexivity.
  - intros Hit. unfold __init__, VariationalAnsatz_init.
    rewrite operations_without_iterations by exact Hit.
    cbn [fst]. rewrite Hempty. cbn [bind].
    eexists. repeat split; reflexivity.
  - intros a scale_factors. apply default_initial_params_zero_iterations.
Qed.

Lemma construction_does_not_validate_witness :
  let swap_network :=
    fun (l : list Qid)
        (f : Z -> Z -> Qid -> Qid -> result (list Operation))
        (fermionic offset : bool) => f 0 1 (LineQubit 0) (LineQubit 1) in
  let assemble :=
    fun trees : list (result (list Operation)) =>
      for_each (fun acc tree => ops <- tree ;; Ok (acc ++ ops)) trees [] in
  exists a,
    __init__ (VariationalAnsatz_init _ swap_network _ assemble)
      0 2 1 2 true (-1) None (Some [LineQubit 0; LineQubit 1]) = Ok a
    /\ x_dim a = 0 /\ y_dim a = 2 /\ iterations a = -1.
Proof.
  intros swap_network assemble.
  apply (proj1 (proj2
    (construction_does_not_validate _ swap_network _ assemble []
       0 2 1 2 true (-1) None (Some [LineQubit 0; LineQubit 1])
       eq_refl))).
  lia.
Defined.

(** ** The qubit sequence of [operations] *)

Section OperationsFacts.

Variable OP_TREE : Type.
Variable swap_network :
  list Qid -> (Z -> Z -> Qid -> Qid -> result (list Operation)) ->
  bool -> bool -> OP_TREE.
Variable self : SwapNetworkTrotterHubbardAnsatz.

(** A new object leaves the objects of the store as they are. *)
Lemma deref_alloc (s : store) (l : list Qid) (r : ref) :
  (r < List.length s)%nat -> deref (s ++ [l]) r = deref s r.
Proof. intros H. unfold deref. now apply app_nth1. Qed.

Lemma deref_new (s : store) (l : list Qid) :
  deref (s ++ [l]) (List.length s) = l.
Proof. unfold deref. now rewrite nth_middle. Qed.

(** One turn of the loop: two objects are allocated, the objects of the
    store are untouched and the local variable ends on a sequence equal to
    the one it started with. *)
Lemma operations_body_spec (i : Z) (qubits : ref) (s : store) :
  (qubits < List.length s)%nat ->
  let '(out, s') := operations_body OP_TREE swap_network self i qubits s in
  List.length s' = (List.length s + 2)%nat
  /\ (snd out < List.length s')%nat
  /\ deref s' (snd out) = deref s qubits
  /\ (forall r, (r < List.length s)%nat -> deref s' r = deref s r).
Proof.
  intros Hq. unfold operations_body, st_bind, read, slice_reversed, st_ret.
  cbn [snd fst].
  set (s1 := s ++ [rev (deref s qubits)]).
  assert (L1 : List.length s1 = (List.length s + 1)%nat)
    by (unfold s1; rewrite length_app; reflexivity).
  repeat split.
  - rewrite length_app, L1. cbn. lia.
  - rewrite length_app. cbn. lia.
  - rewrite deref_new. unfold s1. now rewrite deref_new, rev_involutive.
  - intros r Hr. rewrite deref_alloc by lia. now apply deref_alloc.
Qed.

Lemma operations_from_frame (n : nat) (i : Z) (qubits : ref) (s : store) :
  (qubits < List.length s)%nat ->
  forall r, (r < List.length s)%nat ->
    deref (snd (operations_from OP_TREE swap_network self n i qubits s)) r
    = deref s r.
Proof.
  revert i qubits s. induction n as [|n IH]; intros i qubits s Hq r Hr;
    [reflexivity|].
  cbn [operations_from]. unfold st_bind at 1.
  pose proof (operations_body_spec i qubits s Hq) as B.
  destruct (operations_body OP_TREE swap_network self i qubits s)
    as [out s1].
  destruct B as (L & Hout & _ & Hframe).
  unfold st_bind, st_ret.
  specialize (IH (i + 1)%Z (snd out) s1 Hout r ltac:(lia)).
  destruct (operations_from OP_TREE swap_network self n (i + 1) (snd out) s1)
    as [rest s2].
  cbn [snd] in *. rewrite IH. now apply Hframe.
Qed.

End OperationsFacts.

(** C9: [operations] leaves the sequence it is given, and every other
    sequence of the store, as it was: the reversals make new sequences.  In
    each turn of its loop the local variable [qubits] ends on a sequence
    with the elements in the order they had when the turn began. *)
Theorem operations_leave_the_qubits (OP_TREE : Type)
    (swap_network :
       list Qid -> (Z -> Z -> Qid -> Qid -> result (list Operation)) ->
       bool -> bool -> OP_TREE)
    (self : SwapNetworkTrotterHubbardAnsatz) (s : store) (qubits : ref) :
  (qubits < List.length s)%nat ->
  deref (snd (operations OP_TREE swap_network self qubits s)) qubits
  = deref s qubits
  /\ (forall r, (r < List.length s)%nat ->
        deref (snd (operations OP_TREE swap_network self qubits s)) r
        = deref s r)
  /\ (forall i local s0, (local < List.length s0)%nat ->
        let '(out, s1) :=
          operations_body OP_TREE swap_network self i local s0 in
        (snd out < List.length s1)%nat
        /\ deref s1 (snd out) = deref s0 local
        /\ deref s1 local = deref s0 local).
Proof.
  intros Hq. split; [|split].
  - now apply operations_from_frame.
  - intros r Hr. now apply operations_from_frame.
  - intros i local s0 Hl.
    pose proof (operations_body_spec OP_TREE swap_network self i local s0 Hl)
      as B.
    destruct (operations_body OP_TREE swap_network self i local s0)
      as [out s1].
    destruct B as (_ & H1 & H2 & H3). auto.
Qed.

Lemma operations_leave_the_qubits_witness :
  let swap_network :=
    fun (l : list Qid)
        (f : Z -> Z -> Qid -> Qid -> result (list Operation))
        (fermionic offset : bool) => l in
  let self := mkAnsatz 2 1 1 2 false 2 (2 # 5) [] in
  let s := [[LineQubit 0; LineQubit 1; LineQubit 2; LineQubit 3]] in
  deref (snd (operations (list Qid) swap_network self 0%nat s)) 0%nat
  = deref s 0%nat
  /\ (forall r, (r < List.length s)%nat ->
        deref (snd (operations (list Qid) swap_network self 0%nat s)) r
        = deref s r)
  /\ (forall i local s0, (local < List.length s0)%nat ->
        let '(out, s1) :=
          operations_body (list Qid) swap_network self i local s0 in
        (snd out < List.length s1)%nat
        /\ deref s1 (snd out) = deref s0 local
        /\ deref s1 local = deref s0 local).
Proof.
  intros swap_network self s.
  apply (operations_leave_the_qubits (list Qid) swap_network self s 0%nat).
  cbn. lia.
Defined.

(** * Further properties of the lattice geometry *)

Section NeighborFacts.

Import Lattice.

Variables x y : Z.
Hypothesis x_positive : 1 <= x.
Hypothesis y_positive : 1 <= y.

(** What the right neighbour is, whatever the boundary condition. *)
Lemma right_neighbor_some (site s : Z) (periodic : bool) :
  _right_neighbor site x y periodic = Ok (Some s) ->
  x <> 1
  /\ (((site + 1) mod x <> 0 /\ s = site + 1)
      \/ ((site + 1) mod x = 0 /\ periodic = true /\ s = site + 1 - x)).
Proof.
  unfold _right_neighbor, py_mod.
  destruct (Z.eqb_spec x 1); [discriminate|].
  destruct (Z.eqb_spec x 0); [lia|]. cbn [bind].
  destruct (Z.eqb_spec ((site + 1) mod x) 0), periodic;
    intros [= <-] || discriminate; auto.
Qed.

Lemma next_in_row (site : Z) :
  (site + 1) mod x <> 0 ->
  (site + 1) / x = site / x /\ (site + 1) mod x = site mod x + 1.
Proof.
  intros H.
  assert (site mod x <> x - 1) by (now rewrite <- right_edge_iff).
  pose proof (Z.mod_pos_bound site x ltac:(lia)).
  pose proof (Z.div_mod site x ltac:(lia)).
  split; symmetry.
  - apply (Z.div_unique (site + 1) x (site / x) (site mod x + 1)); lia.
  - apply (Z.mod_unique (site + 1) x (site / x) (site mod x + 1)); lia.
Qed.

Lemma row_start (site : Z) :
  (site + 1) mod x = 0 ->
  (site + 1 - x) / x = site / x /\ (site + 1 - x) mod x = 0
  /\ site mod x = x - 1.
Proof.
  intros H. apply right_edge_iff in H; [|lia].
  pose proof (Z.div_mod site x ltac:(lia)).
  repeat split; try assumption; symmetry.
  - apply (Z.div_unique (site + 1 - x) x (site / x) 0); lia.
  - apply (Z.mod_unique (site + 1 - x) x (site / x) 0); lia.
Qed.

End NeighborFacts.

Lemma right_neighbor_coordinates (site x y s : Z) (periodic : bool) :
  1 <= x -> 1 <= y -> 0 <= site < x * y ->
  Lattice._right_neighbor site x y periodic = Ok (Some s) ->
  0 <= s < x * y
  /\ s / x = site / x
  /\ s mod x = (site mod x + 1) mod x.
Proof.
  intros Hx Hy Hs H.
  apply (right_neighbor_some x y Hx) in H as [Hx1 [[Hm ->]|(Hm & _ & ->)]].
  - destruct (next_in_row x Hx site Hm) as [Hd Hr].
    pose proof (Z.mod_pos_bound (site + 1) x ltac:(lia)).
    rewrite (Z.mod_small (site mod x + 1)) by lia. repeat split; try lia.
    assert (site + 1 <> x * y); [|lia].
    intros C. apply Hm. rewrite C, Z.mul_comm. apply Z.mod_mul. lia.
  - destruct (row_start x Hx site Hm) as (Hd & Hr & Hl).
    rewrite Hl. replace (x - 1 + 1) with x by lia. rewrite Z.mod_same by lia.
    repeat split; try lia.
    pose proof (Z.div_mod site x ltac:(lia)).
    assert (0 <= site / x) by (apply Z.div_pos; lia). nia.
Qed.

(** X1: a right neighbour, periodic or not, is a site of the lattice in the
    row of the site, one column further, cyclically. *)
Theorem right_neighbor_in_row (site x y s : Z) (periodic : bool) :
  1 <= x -> 1 <= y -> 0 <= site < x * y ->
  Lattice._right_neighbor site x y periodic = Ok (Some s) ->
  0 <= s < x * y
  /\ s / x = site / x
  /\ s mod x = (site mod x + 1) mod x.
Proof. apply right_neighbor_coordinates. Qed.

Lemma right_neighbor_in_row_witness :
  0 <= 3 < 3 * 2 /\ 3 / 3 = 5 / 3 /\ 3 mod 3 = (5 mod 3 + 1) mod 3.
Proof.
  apply (right_neighbor_in_row 5 3 2 3 true); try lia. reflexivity.
Defined.

Lemma bottom_neighbor_coordinates (site x y s : Z) (periodic : bool) :
  1 <= x -> 1 <= y -> 0 <= site < x * y ->
  Lattice._bottom_neighbor site x y periodic = Some s ->
  0 <= s < x * y
  /\ s mod x = site mod x
  /\ s / x = (site / x + 1) mod y.
Proof.
  intros Hx Hy Hs H.
  apply bottom_neighbor_some in H as [Hy1 [[-> Hb]|[-> Hb]]].
  - replace (site + x) with (site + 1 * x) by lia.
    rewrite Z.mod_add, Z.div_add by lia.
    assert ((site + 1 * x) / x < y)
      by (apply Z.div_lt_upper_bound; lia).
    rewrite Z.div_add in H by lia.
    assert (0 <= site / x) by (apply Z.div_pos; lia).
    rewrite (Z.mod_small (site / x + 1)) by lia. repeat split; lia.
  - pose proof Hb as Hrow. apply bottom_row_iff in Hrow; [|lia|lia].
    replace (site + x - x * y) with (site + (- (y - 1)) * x) by lia.
    rewrite Z.mod_add, Z.div_add, Hrow by lia.
    replace (y - 1 + 1) with y by lia. rewrite Z.mod_same by lia.
    repeat split; nia.
Qed.

(** X2: a bottom neighbour, periodic or not, is a site of the lattice in the
    column of the site, one row further, cyclically. *)
Theorem bottom_neighbor_in_column (site x y s : Z) (periodic : bool) :
  1 <= x -> 1 <= y -> 0 <= site < x * y ->
  Lattice._bottom_neighbor site x y periodic = Some s ->
  0 <= s < x * y
  /\ s mod x = site mod x
  /\ s / x = (site / x + 1) mod y.
Proof. apply bottom_neighbor_coordinates. Qed.

Lemma bottom_neighbor_in_column_witness :
  0 <= 2 < 3 * 2 /\ 2 mod 3 = 5 mod 3 /\ 2 / 3 = (5 / 3 + 1) mod 2.
Proof.
  apply (bottom_neighbor_in_column 5 3 2 2 true); try lia. reflexivity.
Defined.

(** X3: no site is the right neighbour of two sites, and no site of the
    lattice is the bottom neighbour of two sites of the lattice. *)
Theorem neighbors_injective (s1 s2 t x y : Z) (periodic : bool) :
  1 <= x -> 1 <= y ->
  (Lattice._right_neighbor s1 x y periodic = Ok (Some t) ->
   Lattice._right_neighbor s2 x y periodic = Ok (Some t) -> s1 = s2)
  /\ (0 <= s1 < x * y -> 0 <= s2 < x * y ->
      Lattice._bottom_neighbor s1 x y periodic = Some t ->
      Lattice._bottom_neighbor s2 x y periodic = Some t -> s1 = s2).
Proof.
  intros Hx Hy. split.
  - intros H1 H2.
    apply (right_neighbor_some x y Hx) in H1 as [_ [[M1 E1]|(M1 & _ & E1)]];
      apply (right_neighbor_some x y Hx) in H2 as [_ [[M2 E2]|(M2 & _ & E2)]];
      try lia; exfalso.
    + apply M1. replace (s1 + 1) with (s2 + 1 + (- 1) * x) by lia.
      now rewrite Z.mod_add by lia.
    + apply M2. replace (s2 + 1) with (s1 + 1 + (- 1) * x) by lia.
      now rewrite Z.mod_add by lia.
  - intros R1 R2 H1 H2.
    apply bottom_neighbor_some in H1 as [_ [[E1 B1]|[E1 B1]]];
      apply bottom_neighbor_some in H2 as [_ [[E2 B2]|[E2 B2]]]; lia.
Qed.

Lemma neighbors_injective_witness :
  Lattice._right_neighbor 5 3 2 true = Ok (Some 3)
  /\ Lattice._bottom_neighbor 5 3 2 true = Some 2
  /\ 5 = 5.
Proof.
  split; [reflexivity|]. split; [reflexivity|].
  apply (proj2 (neighbors_injective 5 5 2 3 2 true ltac:(lia) ltac:(lia)));
    try lia; reflexivity.
Defined.

(** * Further properties of the edge predicates *)

Section EdgeFacts.

Import Lattice.

Lemma fold_sector_lower (p q n : Z) :
  p < n -> q < n ->
  different_sectors p q n = false /\ fold_sector p q n = (p, q).
Proof.
  intros Hp Hq. unfold different_sectors, fold_sector.
  destruct (Z.leb_spec n p); [lia|]. destruct (Z.leb_spec n q); [lia|].
  now rewrite !andb_false_r.
Qed.

Lemma fold_sector_upper (p q n : Z) :
  0 <= p -> 0 <= q ->
  different_sectors (p + n) (q + n) n = false
  /\ fold_sector (p + n) (q + n) n = (p, q).
Proof.
  intros Hp Hq. unfold different_sectors, fold_sector.
  destruct (Z.ltb_spec (p + n) n); [lia|].
  destruct (Z.ltb_spec (q + n) n); [lia|].
  destruct (Z.leb_spec n (p + n)); [|lia].
  destruct (Z.leb_spec n (q + n)); [|lia].
  cbn. split; [reflexivity|]. f_equal; lia.
Qed.

Lemma right_neighbor_open_value (site x y : Z) :
  1 <= x ->
  _right_neighbor site x y false
  = Ok (if (site + 1) mod x =? 0 then None else Some (site + 1)).
Proof.
  intros Hx. unfold _right_neighbor, py_mod.
  destruct (Z.eqb_spec x 1) as [->|].
  - now rewrite Z.mod_1_r.
  - destruct (Z.eqb_spec x 0); [lia|]. cbn [bind].
    now destruct ((site + 1) mod x =? 0).
Qed.

Lemma same_row_next (site x : Z) :
  1 <= x -> ((site + 1) mod x <> 0 <-> (site + 1) / x = site / x).
Proof.
  intros Hx. split.
  - intros H. now apply next_in_row.
  - intros H C. apply right_edge_iff in C; [|lia].
    pose proof (Z.div_mod site x ltac:(lia)) as D.
    assert ((site + 1) / x = site / x + 1); [|lia].
    symmetry. apply (Z.div_unique (site + 1) x (site / x + 1) 0); lia.
Qed.

End EdgeFacts.

(** X4: on a lattice of at least one row and one column, none of the three
    edge predicates holds between an index and itself. *)
Theorem no_edge_to_itself (p x y : Z) (periodic : bool) :
  1 <= x -> 1 <= y ->
  Lattice._is_horizontal_edge p p x y periodic = Ok false
  /\ Lattice._is_vertical_edge p p x y periodic = false
  /\ Lattice._are_same_site_opposite_spin p p (x * y) = false.
Proof.
  intros Hx Hy. split; [|split].
  - destruct (horizontal_total p p x y periodic Hx) as [[|] H];
      [|exact H]. exfalso.
    apply horizontal_true in H as (_ & Hx1 & H); [|exact Hx].
    unfold Lattice.fold_sector in H.
    destruct ((x * y <=? p) && (x * y <=? p)); lia.
  - destruct (Lattice._is_vertical_edge p p x y periodic) eqn:H;
      [|reflexivity]. exfalso.
    apply vertical_true in H as (_ & Hy1 & H).
    unfold Lattice.fold_sector in H.
    destruct ((x * y <=? p) && (x * y <=? p)); nia.
  - unfold Lattice._are_same_site_opposite_spin.
    destruct (Z.eqb_spec (Z.abs (p - p)) (x * y)); [nia|reflexivity].
Qed.

Lemma no_edge_to_itself_witness :
  Lattice._is_horizontal_edge 3 3 2 2 true = Ok false
  /\ Lattice._is_vertical_edge 3 3 2 2 true = false
  /\ Lattice._are_same_site_opposite_spin 3 3 (2 * 2) = false.
Proof.
  apply (no_edge_to_itself 3 2 2 true); lia.
Defined.

(** X5: the two spin sectors carry the same lattice: shifting both indices
    of a pair of the lower sector by the number of sites changes neither the
    horizontal nor the vertical edge predicate. *)
Theorem edges_same_in_both_sectors (p q x y : Z) (periodic : bool) :
  0 <= p < x * y -> 0 <= q < x * y ->
  Lattice._is_horizontal_edge (p + x * y) (q + x * y) x y periodic
  = Lattice._is_horizontal_edge p q x y periodic
  /\ Lattice._is_vertical_edge (p + x * y) (q + x * y) x y periodic
     = Lattice._is_vertical_edge p q x y periodic.
Proof.
  intros Hp Hq.
  destruct (fold_sector_lower p q (x * y)) as [D F]; [lia|lia|].
  destruct (fold_sector_upper p q (x * y)) as [D' F']; [lia|lia|].
  unfold Lattice._is_horizontal_edge, Lattice._is_vertical_edge.
  now rewrite D, F, D', F'.
Qed.

Lemma edges_same_in_both_sectors_witness :
  Lattice._is_horizontal_edge (0 + 2 * 2) (1 + 2 * 2) 2 2 false
  = Lattice._is_horizontal_edge 0 1 2 2 false
  /\ Lattice._is_vertical_edge (0 + 2 * 2) (1 + 2 * 2) 2 2 false
     = Lattice._is_vertical_edge 0 1 2 2 false.
Proof.
  apply (edges_same_in_both_sectors 0 1 2 2 false); lia.
Defined.

(** X6: with open boundaries, two sites of the lattice form a horizontal
    edge exactly when they are next to each other in one row, and a vertical
    edge exactly when their indices differ by the number of columns. *)
Theorem open_lattice_edges (p q x y : Z) :
  1 <= x -> 1 <= y -> 0 <= p < x * y -> 0 <= q < x * y ->
  (Lattice._is_horizontal_edge p q x y false = Ok true
   <-> Z.abs (p - q) = 1 /\ p / x = q / x)
  /\ (Lattice._is_vertical_edge p q x y false = true
      <-> Z.abs (p - q) = x).
Proof.
  intros Hx Hy Hp Hq.
  destruct (fold_sector_lower p q (x * y)) as [D F]; [lia|lia|].
  split.
  - unfold Lattice._is_horizontal_edge. rewrite D, F.
    rewrite !right_neighbor_open_value by exact Hx. cbn [bind].
    pose proof (same_row_next p x Hx) as Sp.
    pose proof (same_row_next q x Hx) as Sq.
    destruct (Z.eqb_spec ((p + 1) mod x) 0) as [Ep|Ep];
      destruct (Z.eqb_spec ((q + 1) mod x) 0) as [Eq|Eq];
      cbn [Lattice.eq_site];
      repeat match goal with
      | |- context [ ?a =? ?b ] => destruct (Z.eqb_spec a b)
      end;
      split; try discriminate; try reflexivity; try tauto;
      try (intros _; subst; split; [lia|]; tauto || (symmetry; tauto));
      intros [Ha Hr]; exfalso;
      assert (q = p + 1 \/ p = q + 1) as [-> | ->] by lia;
      tauto || (symmetry in Hr; tauto) || lia.
  - unfold Lattice._is_vertical_edge, Lattice._bottom_neighbor.
    rewrite D, F.
    destruct (Z.eqb_spec y 1) as [->|Hy1]; cbn [Lattice.eq_site orb].
    + split; [discriminate|lia].
    + destruct (Z.ltb_spec (x * y) (p + x + 1));
        destruct (Z.ltb_spec (x * y) (q + x + 1));
        cbn [Lattice.eq_site orb];
        repeat match goal with
        | |- context [ ?a =? ?b ] => destruct (Z.eqb_spec a b)
        end;
        cbn [orb]; split; try discriminate; try reflexivity; lia.
Qed.

Lemma open_lattice_edges_witness :
  (Lattice._is_horizontal_edge 1 2 3 2 false = Ok true
   <-> Z.abs (1 - 2) = 1 /\ 1 / 3 = 2 / 3)
  /\ (Lattice._is_vertical_edge 1 2 3 2 false = true
      <-> Z.abs (1 - 2) = 3).
Proof.
  apply (open_lattice_edges 1 2 3 2); lia.
Defined.

(** * Further properties of the exponent canonicalisation *)



(** * Further properties of the interaction callbacks *)

Section CallbackFacts.

Import Lattice.

Variables x y : Z.
Variable periodic : bool.
Variables p q : Z.
Hypothesis x_positive : 1 <= x.
Hypothesis y_positive : 1 <= y.
Hypothesis p_range : 0 <= p < 2 * x * y.
Hypothesis q_range : 0 <= q < 2 * x * y.

(** Two indices of one spin sector are less than the number of sites
    apart. *)
Lemma same_sector_close :
  different_sectors p q (x * y) = false ->
  _are_same_site_opposite_spin p q (x * y) = false.
Proof.
  intros D.
  pose proof (fold_sector_spec p q (x * y) D ltac:(lia) ltac:(lia)) as F.
  destruct (fold_sector p q (x * y)) as [p' q']. destruct F as (? & ? & ?).
  unfold _are_same_site_opposite_spin.
  destruct (Z.eqb_spec (Z.abs (p - q)) (x * y)); [lia|reflexivity].
Qed.

Lemma horizontal_not_same_site :
  _is_horizontal_edge p q x y periodic = Ok true ->
  _are_same_site_opposite_spin p q (x * y) = false.
Proof.
  intros H. apply horizontal_true in H as (D & _); [|exact x_positive].
  now apply same_sector_close.
Qed.

Lemma vertical_not_same_site :
  _is_vertical_edge p q x y periodic = true ->
  _are_same_site_opposite_spin p q (x * y) = false.
Proof.
  intros H. apply vertical_true in H as (D & _). now apply same_sector_close.
Qed.

Lemma horizontal_not_vertical :
  _is_horizontal_edge p q x y periodic = Ok true ->
  _is_vertical_edge p q x y periodic = false.
Proof.
  intros Hh. destruct (_is_vertical_edge p q x y periodic) eqn:Hv;
    [|reflexivity]. exfalso.
  apply horizontal_true in Hh as (D & Hx1 & Hh); [|exact x_positive].
  apply vertical_true in Hv as (_ & Hy1 & Hv).
  pose proof (fold_sector_spec p q (x * y) D ltac:(lia) ltac:(lia)) as F.
  destruct (fold_sector p q (x * y)) as [p' q']. destruct F as (? & ? & ?).
  destruct Hh as [?|[?|[?|?]]], Hv as [[? ?]|[[? ?]|[[? ?]|[? ?]]]];
    subst; nia.
Qed.

End CallbackFacts.

Lemma reversed_order_rev
    (self : SwapNetworkTrotterHubbardAnsatz) (i p q : Z) (a b : Qid) :
  one_and_two_body_interaction_reversed_order self i p q a b
  = match one_and_two_body_interaction self i p q a b with
    | Ok l => Ok (rev l)
    | Raise e => Raise e
    end.
Proof.
  unfold one_and_two_body_interaction_reversed_order,
    one_and_two_body_interaction.
  destruct (Lattice._is_horizontal_edge p q (x_dim self) (y_dim self)
              (periodic self)) as [h|e]; [|reflexivity].
  cbn [bind]. unfold when.
  now destruct h,
    (Lattice._is_vertical_edge p q (x_dim self) (y_dim self) (periodic self)),
    (Lattice._are_same_site_opposite_spin p q (x_dim self * y_dim self)).
Qed.

(** X11: for every pair, the second callback of an iteration yields the
    operations of the first one in the reverse order, or raises as it
    does. *)
Theorem interaction_reversed_order
    (self : SwapNetworkTrotterHubbardAnsatz) (i p q : Z) (a b : Qid) :
  one_and_two_body_interaction_reversed_order self i p q a b
  = match one_and_two_body_interaction self i p q a b with
    | Ok l => Ok (rev l)
    | Raise e => Raise e
    end.
Proof. apply reversed_order_rev. Qed.

(** X12: on a lattice of at least one row and one column, for two distinct
    qubit indices of the register the first callback does not raise and
    yields at most one operation, on the two qubits it is given; the second
    callback then yields the same. *)
Theorem one_gate_per_pair
    (self : SwapNetworkTrotterHubbardAnsatz) (i p q : Z) (a b : Qid) :
  1 <= x_dim self -> 1 <= y_dim self ->
  0 <= p < 2 * x_dim self * y_dim self ->
  0 <= q < 2 * x_dim self * y_dim self ->
  exists l,
    one_and_two_body_interaction self i p q a b = Ok l
    /\ (List.length l <= 1)%nat
    /\ Forall (fun o => op_first o = a /\ op_second o = b) l
    /\ one_and_two_body_interaction_reversed_order self i p q a b = Ok l.
Proof.
  intros Hx Hy Hp Hq.
  pose proof (horizontal_not_same_site _ _ (periodic self) p q Hx Hp Hq)
    as HS.
  pose proof (vertical_not_same_site (x_dim self) (y_dim self)
                (periodic self) p q Hp Hq) as VS.
  pose proof (horizontal_not_vertical _ _ (periodic self) p q Hx Hy Hp Hq)
    as HV.
  rewrite reversed_order_rev.
  unfold one_and_two_body_interaction.
  destruct (horizontal_total p q (x_dim self) (y_dim self) (periodic self)
              Hx) as [h Hh].
  rewrite Hh in *. cbn [bind]. unfold when.
  destruct h.
  - rewrite HV, HS by reflexivity. eexists. split; [reflexivity|].
    cbn. repeat split; auto.
  - destruct (Lattice._is_vertical_edge p q (x_dim self) (y_dim self)
                (periodic self)).
    + rewrite VS by reflexivity. eexists. split; [reflexivity|].
      cbn. repeat split; auto.
    + destruct (Lattice._are_same_site_opposite_spin p q
                  (x_dim self * y_dim self));
        eexists; (split; [reflexivity|]); cbn; repeat split; auto.
Qed.

Lemma one_gate_per_pair_witness :
  let self := mkAnsatz 2 2 1 2 true 1 (1 # 5) [] in
  exists l,
    one_and_two_body_interaction self 0 0 4 (LineQubit 0) (LineQubit 4)
    = Ok l
    /\ (List.length l <= 1)%nat
    /\ Forall (fun o => op_first o = LineQubit 0 /\ op_second o = LineQubit 4)
         l
    /\ one_and_two_body_interaction_reversed_order self 0 0 4 (LineQubit 0)
         (LineQubit 4) = Ok l.
Proof.
  intros self.
  apply (one_gate_per_pair self 0 0 4 (LineQubit 0) (LineQubit 4));
    cbn; lia.
Defined.

Lemma in_when (c : bool) (o o' : Operation) :
  In o' (when c o) -> c = true /\ o' = o.
Proof.
  destruct c; cbn; [|contradiction]. intros [<-|[]]. now split.
Qed.

Lemma forward_symbols_declared
    (self : SwapNetworkTrotterHubbardAnsatz) (i p q : Z) (a b : Qid)
    (l : list Operation) :
  1 <= x_dim self -> 1 <= y_dim self -> 0 <= i < iterations self ->
  one_and_two_body_interaction self i p q a b = Ok l ->
  forall o, In o l -> In (gate_symbol (op_gate o)) (params self).
Proof.
  intros Hx Hy Hi H o Ho. unfold one_and_two_body_interaction in H.
  destruct (Lattice._is_horizontal_edge p q (x_dim self) (y_dim self)
              (periodic self)) as [h|e] eqn:Hh; [|discriminate].
  cbn [bind] in H. injection H as <-.
  apply in_app_or in Ho as [Ho|Ho]; [|apply in_app_or in Ho as [Ho|Ho]];
    apply in_when in Ho as [Hc ->]; cbn; apply in_params; exists i;
    (split; [exact Hi|]).
  - subst h. apply horizontal_true in Hh as (_ & Hx1 & _); [|exact Hx].
    left. split; [reflexivity|lia].
  - apply vertical_true in Hc as (_ & Hy1 & _).
    right; left. split; [reflexivity|lia].
  - right; right. reflexivity.
Qed.

(** X13: on a lattice of at least one row and one column, every operation
    that a callback of iteration [i] yields has for exponent a symbol, or
    the negation of a symbol, that [params] yields. *)
Theorem gates_use_declared_parameters
    (self : SwapNetworkTrotterHubbardAnsatz) (i p q : Z) (a b : Qid)
    (l : list Operation) :
  1 <= x_dim self -> 1 <= y_dim self -> 0 <= i < iterations self ->
  one_and_two_body_interaction self i p q a b = Ok l
  \/ one_and_two_body_interaction_reversed_order self i p q a b = Ok l ->
  forall o, In o l -> In (gate_symbol (op_gate o)) (params self).
Proof.
  intros Hx Hy Hi [H|H] o Ho.
  - now apply (forward_symbols_declared self i p q a b l).
  - rewrite reversed_order_rev in H.
    destruct (one_and_two_body_interaction self i p q a b) as [l'|e] eqn:E;
      [|discriminate].
    injection H as <-. apply in_rev in Ho.
    now apply (forward_symbols_declared self i p q a b l').
Qed.

Lemma gates_use_declared_parameters_witness :
  let self := mkAnsatz 2 2 1 2 true 1 (1 # 5) [] in
  In (gate_symbol
        (op_gate
           (on (ISwapPowGate (Neg (Sym (Letter "Th" 0)))) (LineQubit 0)
              (LineQubit 1))))
    (params self).
Proof.
  intros self.
  apply (gates_use_declared_parameters self 0 0 1 (LineQubit 0)
           (LineQubit 1)
           [on (ISwapPowGate (Neg (Sym (Letter "Th" 0)))) (LineQubit 0)
              (LineQubit 1)]); cbn; try lia.
  - left. reflexivity.
  - left. reflexivity.
Defined.

(** * Further properties of [operations] *)

Section OperationsYield.

Variable OP_TREE : Type.
Variable swap_network :
  list Qid -> (Z -> Z -> Qid -> Qid -> result (list Operation)) ->
  bool -> bool -> OP_TREE.
Variable self : SwapNetworkTrotterHubbardAnsatz.

(** The two trees of iteration [i] for the qubit order [l]. *)
Let passes (l : list Qid) (i : Z) : list OP_TREE :=
  [swap_network l (one_and_two_body_interaction self i) true false;
   swap_network (rev l)
     (one_and_two_body_interaction_reversed_order self i) true true].

Lemma operations_body_value (i : Z) (qubits : ref) (s : store) :
  operations_body OP_TREE swap_network self i qubits s
  = ((passes (deref s qubits) i, S (List.length s)),
     (s ++ [rev (deref s qubits)]) ++ [deref s qubits]).
Proof.
  unfold operations_body, st_bind, read, slice_reversed, st_ret, passes.
  rewrite deref_new, rev_involutive, length_app. cbn [List.length].
  now rewrite Nat.add_1_r.
Qed.

Lemma operations_from_yields (n : nat) (i : Z) (qubits : ref) (s : store) :
  (qubits < List.length s)%nat ->
  fst (operations_from OP_TREE swap_network self n i qubits s)
  = flat_map (passes (deref s qubits))
      (map (fun k => (i + Z.of_nat k)%Z) (seq 0 n))
  /\ List.length (snd (operations_from OP_TREE swap_network self n i qubits s))
     = (List.length s + 2 * n)%nat.
Proof.
  revert i qubits s. induction n as [|n IH]; intros i qubits s Hq.
  - cbn. split; [reflexivity|lia].
  - cbn [operations_from]. unfold st_bind, st_ret.
    rewrite operations_body_value. cbn [fst snd].
    set (s2 := (s ++ [rev (deref s qubits)]) ++ [deref s qubits]).
    assert (L2 : List.length s2 = (List.length s + 2)%nat)
      by (unfold s2; rewrite !length_app; cbn; lia).
    assert (D2 : deref s2 (S (List.length s)) = deref s qubits).
    { unfold s2. replace (S (List.length s))
        with (List.length (s ++ [rev (deref s qubits)]))
        by (rewrite length_app; cbn; lia).
      apply deref_new. }
    destruct (IH (i + 1)%Z (S (List.length s)) s2 ltac:(lia)) as [Y L].
    destruct (operations_from OP_TREE swap_network self n (i + 1)
                (S (List.length s)) s2) as [rest s3].
    cbn [fst snd] in *. rewrite Y, L, D2. split; [|lia].
    cbn [seq map flat_map]. rewrite Z.add_0_r. f_equal.
    rewrite <- seq_shift, map_map. f_equal.
    apply map_ext. intros k. lia.
Qed.

End OperationsYield.

(** X14: called on a sequence of the store, [operations] yields, for each
    index [i] of [range(iterations)] in order, the swap network over the
    sequence with the first callback of [i], fermionic and without offset,
    then the swap network over the reversed sequence with the second
    callback of [i], fermionic and with offset; it allocates two sequences
    per iteration. *)
Theorem operations_yields (OP_TREE : Type)
    (swap_network :
       list Qid -> (Z -> Z -> Qid -> Qid -> result (list Operation)) ->
       bool -> bool -> OP_TREE)
    (self : SwapNetworkTrotterHubbardAnsatz) (s : store) (qubits : ref) :
  (qubits < List.length s)%nat ->
  fst (operations OP_TREE swap_network self qubits s)
  = flat_map
      (fun i =>
         [swap_network (deref s qubits)
            (one_and_two_body_interaction self i) true false;
          swap_network (rev (deref s qubits))
            (one_and_two_body_interaction_reversed_order self i) true true])
      (range (iterations self))
  /\ List.length (snd (operations OP_TREE swap_network self qubits s))
     = (List.length s + 2 * Z.to_nat (iterations self))%nat.
Proof.
  intros Hq. unfold operations, range.
  destruct (operations_from_yields OP_TREE swap_network self
              (Z.to_nat (iterations self)) 0 qubits s Hq) as [Y L].
  split; [|exact L]. rewrite Y. reflexivity.
Qed.

Lemma operations_yields_witness :
  let swap_network :=
    fun (l : list Qid)
        (f : Z -> Z -> Qid -> Qid -> result (list Operation))
        (fermionic offset : bool) => (l, f 0 1 (LineQubit 0) (LineQubit 1)) in
  let self := mkAnsatz 2 1 1 2 false 2 (2 # 5) [] in
  let s := [[LineQubit 0; LineQubit 1; LineQubit 2; LineQubit 3]] in
  fst (operations _ swap_network self 0%nat s)
  = flat_map
      (fun i =>
         [swap_network (deref s 0%nat)
            (one_and_two_body_interaction self i) true false;
          swap_network (rev (deref s 0%nat))
            (one_and_two_body_interaction_reversed_order self i) true true])
      (range (iterations self))
  /\ List.length (snd (operations _ swap_network self 0%nat s))
     = (List.length s + 2 * Z.to_nat (iterations self))%nat.
Proof.
  intros swap_network self s.
  apply (operations_yields _ swap_network self s 0%nat). cbn. lia.
Defined.

(** * Further properties of degenerate inputs *)

(** X17: a negative number of iterations gives an empty ansatz: no
    parameters, no bounds, no default values, whatever the scale factors,
    and [operations] yields nothing and leaves the store as it is. *)
Theorem negative_iterations_give_nothing
    (self : SwapNetworkTrotterHubbardAnsatz) (scale_factors : list Q)
    (OP_TREE : Type)
    (swap_network :
       list Qid -> (Z -> Z -> Qid -> Qid -> result (list Operation)) ->
       bool -> bool -> OP_TREE)
    (s : store) (qubits : ref) :
  iterations self < 0 ->
  params self = []
  /\ param_bounds self = []
  /\ default_initial_params scale_factors self = Ok []
  /\ operations OP_TREE swap_network self qubits s = ([], s).
Proof.
  intros Hit.
  assert (Hn : Z.to_nat (iterations self) = 0%nat) by lia.
  assert (Hp : params self = []) by (unfold params; now rewrite Hn).
  repeat split.
  - exact Hp.
  - unfold param_bounds. now rewrite Hp.
  - unfold default_initial_params.
    rewrite py_div_ok, Hp; [reflexivity|].
    intros E. apply (proj1 (inject_Z_injective _ 0)) in E. lia.
  - unfold operations. now rewrite Hn.
Qed.

Lemma negative_iterations_give_nothing_witness :
  let self := mkAnsatz 2 2 1 2 true (-3) (1 # 5) [] in
  params self = []
  /\ param_bounds self = []
  /\ default_initial_params [1; 1]%Q self = Ok []
  /\ operations (list Qid) (fun l _ _ _ => l) self 0%nat [[LineQubit 0]]
     = ([], [[LineQubit 0]]).
Proof.
  intros self.
  apply (negative_iterations_give_nothing self). cbn. lia.
Defined.

(** X18: [_generate_qubits] gives the line qubits 0, 1, ... up to
    [2 * x_dim * y_dim], each once and in increasing order; it gives none
    when that number is not positive. *)
Theorem generate_qubits_line (self : SwapNetworkTrotterHubbardAnsatz) :
  Z.of_nat (List.length (_generate_qubits self))
  = Z.max 0 (2 * x_dim self * y_dim self)
  /\ NoDup (_generate_qubits self)
  /\ (forall k, 0 <= k < 2 * x_dim self * y_dim self ->
        nth_error (_generate_qubits self) (Z.to_nat k)
        = Some (LineQubit k))
  /\ (forall a, In a (_generate_qubits self) ->
        exists k, a = LineQubit k /\ 0 <= k < 2 * x_dim self * y_dim self).
Proof.
  unfold _generate_qubits, range.
  set (n := 2 * x_dim self * y_dim self).
  refine (conj _ (conj _ (conj _ _))).
  - rewrite !length_map, length_seq. lia.
  - apply Injective_map_NoDup; [now intros a b [= ->]|].
    apply Injective_map_NoDup; [|apply seq_NoDup].
    intros a b. apply Nat2Z.inj.
  - intros k Hk. rewrite !nth_error_map, nth_error_seq.
    destruct (Nat.ltb_spec (Z.to_nat k) (Z.to_nat n)); [|lia].
    cbn. f_equal. f_equal. lia.
  - intros a Ha. apply in_map_iff in Ha as (k & <- & Hk).
    exists k. split; [reflexivity|]. now apply in_range.
Qed.

Lemma generate_qubits_line_witness :
  nth_error (_generate_qubits (mkAnsatz 2 2 1 2 true 1 (1 # 5) []))
    (Z.to_nat 5)
  = Some (LineQubit 5).
Proof.
  apply (generate_qubits_line (mkAnsatz 2 2 1 2 true 1 (1 # 5) [])).
  cbn. lia.
Defined.

(** * The edges of the periodic lattice *)

Section PeriodicEdges.

Import Lattice.

Variables x y : Z.
Hypothesis x_positive : 1 <= x.
Hypothesis y_positive : 1 <= y.

(** A site is determined by its row and its column. *)
Lemma site_of_coordinates (s q : Z) :
  s / x = q / x -> s mod x = q mod x -> s = q.
Proof.
  intros Hd Hm.
  rewrite (Z.div_mod s x), (Z.div_mod q x) by lia. now rewrite Hd, Hm.
Qed.

Lemma right_of_periodic (p q : Z) :
  1 < x -> 0 <= p < x * y ->
  p / x = q / x -> q mod x = (p mod x + 1) mod x ->
  _right_neighbor p x y true = Ok (Some q).
Proof.
  intros Hx Hp Hrow Hcol.
  destruct (right_neighbor_periodic p x y Hx y_positive Hp) as (s & Hs & _).
  destruct (right_neighbor_coordinates p x y s true x_positive y_positive
              Hp Hs) as (_ & Hd & Hm).
  rewrite Hs. do 2 f_equal. apply site_of_coordinates; congruence.
Qed.

Lemma bottom_of_periodic (p q : Z) :
  1 < y -> 0 <= p < x * y ->
  p mod x = q mod x -> q / x = (p / x + 1) mod y ->
  _bottom_neighbor p x y true = Some q.
Proof.
  intros Hy Hp Hcol Hrow.
  destruct (bottom_neighbor_periodic p x y x_positive Hy Hp)
    as (s & Hs & _).
  destruct (bottom_neighbor_coordinates p x y s true x_positive y_positive
              Hp Hs) as (_ & Hm & Hd).
  rewrite Hs. f_equal. apply site_of_coordinates; congruence.
Qed.

End PeriodicEdges.

(** X19: with periodic boundaries, two sites of the lattice form a
    horizontal edge exactly when there are at least two columns, they lie in
    one row and the column of one follows the column of the other
    cyclically; they form a vertical edge exactly when there are at least two
    rows, they lie in one column and the row of one follows the row of the
    other cyclically. *)
Theorem periodic_lattice_edges (p q x y : Z) :
  1 <= x -> 1 <= y -> 0 <= p < x * y -> 0 <= q < x * y ->
  (Lattice._is_horizontal_edge p q x y true = Ok true
   <-> x <> 1 /\ p / x = q / x
       /\ (q mod x = (p mod x + 1) mod x \/ p mod x = (q mod x + 1) mod x))
  /\ (Lattice._is_vertical_edge p q x y true = true
      <-> y <> 1 /\ p mod x = q mod x
          /\ (q / x = (p / x + 1) mod y \/ p / x = (q / x + 1) mod y)).
Proof.
  intros Hx Hy Hp Hq.
  destruct (fold_sector_lower p q (x * y)) as [D F]; [lia|lia|].
  split.
  - unfold Lattice._is_horizontal_edge. rewrite D, F. split.
    + destruct (right_neighbor_ok p x y true Hx) as (rp & Ep & Xp).
      destruct (right_neighbor_ok q x y true Hx) as (rq & Eq & Xq).
      rewrite Ep, Eq. cbn [bind].
      destruct (Lattice.eq_site q rp) eqn:E.
      * intros _. apply eq_site_true in E. subst rp.
        destruct (Xp q eq_refl) as [Hx1 _].
        destruct (right_neighbor_coordinates p x y q true Hx Hy Hp Ep)
          as (_ & Hd & Hm).
        split; [exact Hx1|]. split; [congruence|]. now left.
      * intros [= E']. apply eq_site_true in E'. subst rq.
        destruct (Xq p eq_refl) as [Hx1 _].
        destruct (right_neighbor_coordinates q x y p true Hx Hy Hq Eq)
          as (_ & Hd & Hm).
        split; [exact Hx1|]. split; [congruence|]. now right.
    + intros (Hx1 & Hrow & [Hcol|Hcol]).
      * rewrite (right_of_periodic x y Hx Hy p q) by (lia || assumption).
        cbn [bind Lattice.eq_site]. now rewrite Z.eqb_refl.
      * rewrite (right_of_periodic x y Hx Hy q p) by (lia || auto).
        destruct (right_neighbor_ok p x y true Hx) as (rp & -> & _).
        cbn [bind Lattice.eq_site]. rewrite Z.eqb_refl.
        now destruct (Lattice.eq_site q rp).
  - unfold Lattice._is_vertical_edge. rewrite D, F. split.
    + intros H. apply orb_true_iff in H as [H|H]; apply eq_site_true in H.
      * pose proof H as H'. apply bottom_neighbor_some in H' as [Hy1 _].
        destruct (bottom_neighbor_coordinates p x y q true Hx Hy Hp H)
          as (_ & Hm & Hd).
        split; [exact Hy1|]. split; [congruence|]. now left.
      * pose proof H as H'. apply bottom_neighbor_some in H' as [Hy1 _].
        destruct (bottom_neighbor_coordinates q x y p true Hx Hy Hq H)
          as (_ & Hm & Hd).
        split; [exact Hy1|]. split; [congruence|]. now right.
    + intros (Hy1 & Hcol & [Hrow|Hrow]).
      * rewrite (bottom_of_periodic x y Hx Hy p q) by (lia || assumption).
        cbn [Lattice.eq_site]. now rewrite Z.eqb_refl.
      * rewrite (bottom_of_periodic x y Hx Hy q p) by (lia || auto).
        cbn [Lattice.eq_site]. rewrite Z.eqb_refl. apply orb_true_r.
Qed.

Lemma periodic_lattice_edges_witness :
  (Lattice._is_horizontal_edge 3 5 3 2 true = Ok true
   <-> 3 <> 1 /\ 3 / 3 = 5 / 3
       /\ (5 mod 3 = (3 mod 3 + 1) mod 3 \/ 3 mod 3 = (5 mod 3 + 1) mod 3))
  /\ (Lattice._is_vertical_edge 3 5 3 2 true = true
      <-> 2 <> 1 /\ 3 mod 3 = 5 mod 3
          /\ (5 / 3 = (3 / 3 + 1) mod 2 \/ 3 / 3 = (5 / 3 + 1) mod 2)).
Proof.
  apply (periodic_lattice_edges 3 5 3 2); lia.
Defined.
